(** * relational-react: a shallow embedding of [src/loader.tsx]

    The development follows the TypeScript source class by class:
    [TableRegistry], [SubscriberCollection], [TableStore], [Hook],
    [createComparator], [createTable], and the query helpers
    [combinePredicates] and [createDefaultQueryFunction].

    JavaScript objects live in a heap and are handled by reference.  The
    heap of this model is the record [World]: table stores and hooks are
    addressed by their index in a list, the registry object is a finite map
    from symbols to store addresses.  Methods are computations in a small
    monad [M] that threads the world, may throw, and records a trace of
    the calls whose number and order the specification talks about. *)

From Stdlib Require Import ZArith Lia Sorted Permutation.
From stdpp Require Import gmap strings list fin_maps.

Set Implicit Arguments.
Local Open Scope Z_scope.

(** ** JavaScript values *)

(** The values a record field or an untyped argument can hold.  Numbers
    are restricted to the integers and [NaN]; objects are represented by
    their reference. *)
Inductive JsVal : Type :=
| VUndefined
| VNull
| VBool (b : bool)
| VNumber (z : Z)
| VNaN
| VString (s : string)
| VSymbol (n : nat)
| VObject (ref : nat).

(** [x === y] *)
Definition strictEquals (x y : JsVal) : bool :=
  match x, y with
  | VUndefined, VUndefined => true
  | VNull, VNull => true
  | VBool a, VBool b => Bool.eqb a b
  | VNumber a, VNumber b => Z.eqb a b
  | VString a, VString b => String.eqb a b
  | VSymbol a, VSymbol b => Nat.eqb a b
  | VObject a, VObject b => Nat.eqb a b
  | _, _ => false
  end.

(** [ToBoolean] *)
Definition toBoolean (x : JsVal) : bool :=
  match x with
  | VUndefined | VNull | VNaN => false
  | VBool b => b
  | VNumber z => negb (Z.eqb z 0)
  | VString s => negb (String.eqb s EmptyString)
  | VSymbol _ | VObject _ => true
  end.

(** What the engine needs to know of the record type [T] of a table:
    reference identity ([a === b] on two records) and property access
    ([a[key]]). *)
Class JsRecord (T : Type) : Type := {
  sameReference : T -> T -> bool;
  getProperty : T -> string -> JsVal
}.

(** A plain object: its reference and its own properties. *)
Record JsObject : Type := {
  ref : nat;
  properties : gmap string JsVal
}.

#[export] Instance JsObject_record : JsRecord JsObject := {
  sameReference a b := Nat.eqb (ref a) (ref b);
  getProperty a key := default VUndefined (properties a !! key)
}.

(** ** Exceptions *)

Inductive Error : Type :=
| InvalidEqualityArgument    (* the [Error] thrown by [createComparator] *)
| InternalInvariantViolation (* the [Error] thrown by [combinePredicates] *)
| TypeError.                 (* a method called on [undefined] *)

Inductive Result (A : Type) : Type :=
| Ok (a : A)
| Throw (e : Error).
Arguments Throw {A} e.

(** ** Built-in array methods *)

Section Arrays.
Variable A : Type.

(** [arr.splice(start, deleteCount)], for indices within the array. *)
Definition Array_splice (start deleteCount : nat) (arr : list A) : list A :=
  take start arr ++ drop (start + deleteCount)%nat arr.

(** [ToIntegerOrInfinity] followed by the clamping of a relative index
    that [slice] performs. *)
Definition relativeIndex (len i : Z) : Z :=
  if i <? 0 then Z.max (len + i) 0 else Z.min i len.

(** [arr.slice(start, end)] *)
Definition Array_slice (arr : list A) (start end_ : Z) : list A :=
  let len := Z.of_nat (length arr) in
  let k := relativeIndex len start in
  let final := relativeIndex len end_ in
  take (Z.to_nat (Z.max (final - k) 0)) (drop (Z.to_nat k) arr).

(** [arr.sort(comparefn)].  The language fixes the result for a
    consistent comparator: a stable ascending sort.  It is modelled by a
    stable insertion sort, [x] being placed after the elements [y] of
    the sorted rest with [comparefn(x, y) > 0].  For a comparator that
    is not consistent the language leaves the order to the
    implementation, and [Array_sort] is then only one of the orders an
    engine may give. *)
Fixpoint sortInsert (comparefn : A -> A -> Z) (x : A) (sorted : list A) : list A :=
  match sorted with
  | [] => [x]
  | y :: rest =>
      if comparefn x y <=? 0 then x :: y :: rest
      else y :: sortInsert comparefn x rest
  end.

Definition Array_sort (comparefn : A -> A -> Z) (arr : list A) : list A :=
  foldr (sortInsert comparefn) [] arr.
End Arrays.

(** [arr.indexOf(s)] on an array of references: the first index holding
    [s], or [-1]. *)
Fixpoint Array_indexOf_from (s : nat) (arr : list nat) (k : Z) : Z :=
  match arr with
  | [] => -1
  | x :: rest => if Nat.eqb x s then k else Array_indexOf_from s rest (k + 1)
  end.

Definition Array_indexOf (s : nat) (arr : list nat) : Z :=
  Array_indexOf_from s arr 0.

(** ** The engine *)

Section Engine.
Variable T : Type.

Definition Equality : Type := T -> T -> bool.

(** [QueryFunction<T>], [(array: T[]) => T[]].  A query function may
    build the records it returns ([arr => arr.map(x => ({...x}))]), and
    a record built by one call is not the record built by another.  So
    the function is given, next to the array, the number of query calls
    that the program has made before this one; a function that returns
    records of the array it is given does not look at it. *)
Definition QueryFunction : Type := list T -> nat -> list T.

(** A query function that builds no record. *)
Definition plainQuery (f : list T -> list T) : QueryFunction :=
  fun array _ => f array.

(** A query function that returns the same records whenever it is
    called on the same array. *)
Definition stableQuery (q : QueryFunction) : Prop :=
  forall array n m, q array n = q array m.

(** [Table<T>]: the handle given to consumers. *)
Record Table : Type := { reference : nat }.

(** [Hook<T>].  [table] is the store the hook was built with
    ([None] for [undefined]); the field [triggerRerender] is kept apart,
    see below. *)
Record Hook : Type := {
  table : option nat;
  queryFn : QueryFunction;
  oldState : option (list T)
}.

(** [TableStore<T>], with the array of its [SubscriberCollection];
    [store_reference] is its field [reference]. *)
Record TableStore : Type := {
  store_reference : nat;
  equalityFn : Equality;
  subscriber : list nat;
  state : list T
}.

(** The heap: [registry] is the object of the one [TableRegistry],
    [tables] and [hooks] hold the objects made by [new TableStore] and
    [new Hook], [symbols] counts the symbols made so far, [number] is
    the counter that [useQuery] keeps in React state for each hook, and
    [queryCalls] counts the calls of query functions made so far. *)
Record World : Type := {
  registry : gmap nat nat;
  tables : list TableStore;
  hooks : list Hook;
  symbols : nat;
  number : gmap nat nat;
  queryCalls : nat
}.

(** What a run leaves in its trace. *)
Inductive Event : Type :=
| EvRerender (hook : nat) (equalityFn : Equality) (* [Hook.rerender] entered *)
| EvEquality (x y : T)                            (* the equality policy applied *)
| EvTrigger (hook : nat).                         (* [triggerRerender] called *)

(** Computations: from a world to an outcome, the world left behind
    (also when an exception is thrown) and the trace. *)
Definition M (A : Type) : Type := World -> Result A * World * list Event.

#[export] Instance M_ret : MRet M := fun A a w => (Ok a, w, []).
#[export] Instance M_bind : MBind M := fun A B f m w =>
  match m w with
  | (Ok a, w1, t1) =>
      match f a w1 with
      | (r, w2, t2) => (r, w2, t1 ++ t2)
      end
  | (Throw e, w1, t1) => (Throw e, w1, t1)
  end.

Definition throw {A : Type} (e : Error) : M A := fun w => (Throw e, w, []).
Definition getWorld : M World := fun w => (Ok w, w, []).
Definition modify (f : World -> World) : M unit := fun w => (Ok tt, f w, []).
Definition emit (e : Event) : M unit := fun w => (Ok tt, w, [e]).
Definition lift {A : Type} (r : Result A) : M A := fun w => (r, w, []).

(** Dereferencing; a reference that is [undefined] fails as a property
    access on [undefined] does. *)
Definition getStore (l : nat) : M TableStore :=
  w ← getWorld;
  match tables w !! l with
  | Some ts => mret ts
  | None => throw TypeError
  end.

Definition getHook (h : nat) : M Hook :=
  w ← getWorld;
  match hooks w !! h with
  | Some hk => mret hk
  | None => throw TypeError
  end.

Definition setTables (f : list TableStore -> list TableStore) (w : World) : World :=
  {| registry := registry w; tables := f (tables w); hooks := hooks w;
     symbols := symbols w; number := number w;
     queryCalls := queryCalls w |}.

Definition setHooks (f : list Hook -> list Hook) (w : World) : World :=
  {| registry := registry w; tables := tables w; hooks := f (hooks w);
     symbols := symbols w; number := number w;
     queryCalls := queryCalls w |}.

Definition setRegistry (f : gmap nat nat -> gmap nat nat) (w : World) : World :=
  {| registry := f (registry w); tables := tables w; hooks := hooks w;
     symbols := symbols w; number := number w;
     queryCalls := queryCalls w |}.

Definition setNumber (f : gmap nat nat -> gmap nat nat) (w : World) : World :=
  {| registry := registry w; tables := tables w; hooks := hooks w;
     symbols := symbols w; number := f (number w);
     queryCalls := queryCalls w |}.

Definition setQueryCalls (f : nat -> nat) (w : World) : World :=
  {| registry := registry w; tables := tables w; hooks := hooks w;
     symbols := symbols w; number := number w;
     queryCalls := f (queryCalls w) |}.

(** *** class TableRegistry *)

Definition TableRegistry_get (tb : Table) : M (option nat) :=
  w ← getWorld; mret (registry w !! reference tb).

Definition TableRegistry_set (tableReference : nat) (l : nat) : M unit :=
  modify (setRegistry (insert tableReference l)).

Definition TableRegistry_delete (tableReference : nat) : M unit :=
  modify (setRegistry (delete tableReference)).

Definition TableRegistry_clear : M unit :=
  modify (setRegistry (fun _ => ∅)).

(** *** class SubscriberCollection *)

Definition SubscriberCollection_subscribe (s : nat) (arr : list nat) : list nat :=
  arr ++ [s].

Definition SubscriberCollection_unsubscribe (s : nat) (arr : list nat) : list nat :=
  let index := Array_indexOf s arr in
  if negb (index =? -1) then Array_splice (Z.to_nat index) 1 arr else arr.

(** The array of the collection of store [l] as it is now. *)
Definition subscriberArray (l : nat) (w : World) : list nat :=
  match tables w !! l with
  | Some ts => subscriber ts
  | None => []
  end.

(** [this.subscriber.forEach(f)]: the length is read once, the index
    runs from [0] to that length, and an index that the array no longer
    has when it is reached is passed over.  [forEach_loop n k] makes the
    [n] steps from index [k]. *)
Fixpoint forEach_loop (l : nat) (f : nat -> M unit) (n k : nat) : M unit :=
  match n with
  | O => mret tt
  | S n' =>
      w ← getWorld;
      match subscriberArray l w !! k with
      | Some s => f s
      | None => mret tt
      end;;
      forEach_loop l f n' (S k)
  end.

Definition Array_forEach (l : nat) (f : nat -> M unit) : M unit :=
  w ← getWorld;
  forEach_loop l f (length (subscriberArray l w)) 0%nat.

(** *** class TableStore *)

Definition modifyStore (l : nat) (f : TableStore -> TableStore) : M unit :=
  modify (setTables (alter f l)).

Definition withSubscriber (f : list nat -> list nat) (ts : TableStore) : TableStore :=
  {| store_reference := store_reference ts; equalityFn := equalityFn ts;
     subscriber := f (subscriber ts); state := state ts |}.

Definition withState (st : list T) (ts : TableStore) : TableStore :=
  {| store_reference := store_reference ts; equalityFn := equalityFn ts;
     subscriber := subscriber ts; state := st |}.

(** [new TableStore(equalityFn)]: a fresh symbol, no subscriber, the
    empty state. *)
Definition TableStore_new (eqFn : Equality) : M nat :=
  w ← getWorld;
  let ts := {| store_reference := symbols w; equalityFn := eqFn;
               subscriber := []; state := [] |} in
  modify (fun w => {| registry := registry w; tables := tables w ++ [ts];
                      hooks := hooks w; symbols := S (symbols w);
                      number := number w; queryCalls := queryCalls w |});;
  mret (length (tables w)).

Definition TableStore_executeQuery (l : nat) (q : QueryFunction) : M (list T) :=
  ts ← getStore l;
  w ← getWorld;
  modify (setQueryCalls S);;
  mret (q (state ts) (queryCalls w)).

Definition TableStore_subscribe (l : nat) (hook : nat) : M unit :=
  _ ← getStore l;
  modifyStore l (withSubscriber (SubscriberCollection_subscribe hook)).

Definition TableStore_unsubscribe (l : nat) (hook : nat) : M unit :=
  _ ← getStore l;
  modifyStore l (withSubscriber (SubscriberCollection_unsubscribe hook)).

(** *** class Hook *)

(** The callback that [useQuery] gives its hook:
    [() => setNumber(s => s + 1)]. *)
Definition useQuery_rerender (hook : nat) : M unit :=
  modify (setNumber (fun m => <[hook := S (default 0%nat (m !! hook))]> m)).

(** The callback each hook was constructed with.  It is set by the
    constructor and never assigned again, and it is arbitrary consumer
    code acting on the heap, so it is given once for all hooks rather
    than stored in the world it acts on. *)
Variable triggerRerender : nat -> M unit.

Definition derefTable (hk : Hook) : M nat :=
  match table hk with
  | Some l => mret l
  | None => throw TypeError
  end.

Definition withOldState (o : option (list T)) (hk : Hook) : Hook :=
  {| table := table hk; queryFn := queryFn hk; oldState := o |}.

Definition withQueryFn (q : QueryFunction) (hk : Hook) : Hook :=
  {| table := table hk; queryFn := q; oldState := oldState hk |}.

(** [new Hook(table, queryFn, rerender)] *)
Definition Hook_new (tbl : option nat) (q : QueryFunction) : M nat :=
  w ← getWorld;
  modify (setHooks (fun hs => hs ++ [{| table := tbl; queryFn := q; oldState := None |}]));;
  mret (length (hooks w)).

(** The loop of [arrayEquals], over two arrays of one length. *)
Fixpoint arrayEquals_loop (arr1 arr2 : list T) (eqFn : Equality) : M bool :=
  match arr1, arr2 with
  | x :: arr1', y :: arr2' =>
      emit (EvEquality x y);;
      if negb (eqFn x y) then mret false
      else arrayEquals_loop arr1' arr2' eqFn
  | _, _ => mret true
  end.

Definition Hook_arrayEquals (arr1 arr2 : list T) (eqFn : Equality) : M bool :=
  if negb (length arr1 =? length arr2)%nat then mret false
  else arrayEquals_loop arr1 arr2 eqFn.

Definition Hook_executeQuery (this : nat) (q : QueryFunction) : M (list T) :=
  hk ← getHook this;
  l ← derefTable hk;
  modify (setHooks (alter (withQueryFn q) this));;
  r ← TableStore_executeQuery l q;
  modify (setHooks (alter (withOldState (Some r)) this));;
  mret r.

Definition Hook_rerender (eqFn : Equality) (this : nat) : M unit :=
  emit (EvRerender this eqFn);;
  hk ← getHook this;
  l ← derefTable hk;
  newState ← TableStore_executeQuery l (queryFn hk);
  changed ← match oldState hk with
            | None => mret true
            | Some old => same ← Hook_arrayEquals old newState eqFn; mret (negb same)
            end;
  (if changed : bool then emit (EvTrigger this);; triggerRerender this
   else mret tt);;
  modify (setHooks (alter (withOldState (Some newState)) this)).

Definition Hook_subscribe (this : nat) : M unit :=
  hk ← getHook this; l ← derefTable hk; TableStore_subscribe l this.

Definition Hook_unsubscribe (this : nat) : M unit :=
  hk ← getHook this; l ← derefTable hk; TableStore_unsubscribe l this.

(** *** Notification *)

Definition SubscriberCollection_rerender (l : nat) (eqFn : Equality) : M unit :=
  Array_forEach l (Hook_rerender eqFn).

Definition TableStore_rerender (l : nat) : M unit :=
  ts ← getStore l; SubscriberCollection_rerender l (equalityFn ts).

(** [React.SetStateAction<T[]>] *)
Inductive SetStateAction : Type :=
| NewState (st : list T)
| Updater (f : list T -> list T).

Definition applyAction (a : SetStateAction) (old : list T) : list T :=
  match a with
  | Updater f => f old
  | NewState st => st
  end.

Definition TableStore_setStateAction (l : nat) (a : SetStateAction) : M unit :=
  ts ← getStore l;
  modifyStore l (withState (applyAction a (state ts)));;
  TableStore_rerender l.

(** *** Reading a trace *)

(** The hooks whose [rerender] was entered, in order. *)
Definition visited (t : list Event) : list nat :=
  omap (fun e => match e with EvRerender h _ => Some h | _ => None end) t.

(** The hooks whose callback was called, in order. *)
Definition triggered (t : list Event) : list nat :=
  omap (fun e => match e with EvTrigger h => Some h | _ => None end) t.

(** The equality policies [rerender] was entered with, in order. *)
Definition policies (t : list Event) : list Equality :=
  omap (fun e => match e with EvRerender _ eqFn => Some eqFn | _ => None end) t.

(** The pairs the equality policy was applied to, in order. *)
Definition comparisons (t : list Event) : list (T * T) :=
  omap (fun e => match e with EvEquality x y => Some (x, y) | _ => None end) t.

(** *** What a notification should do *)

(** The pairs compared by a scan that stops at the first mismatch. *)
Fixpoint uptoMismatch (eqFn : Equality) (ps : list (T * T)) : list (T * T) :=
  match ps with
  | [] => []
  | (x, y) :: ps' => (x, y) :: (if eqFn x y then uptoMismatch eqFn ps' else [])
  end.

Definition evEquality (p : T * T) : Event := EvEquality (fst p) (snd p).

(** The comparisons a notification makes between the last result and
    the new one. *)
Definition comparedPairs (eqFn : Equality) (old : option (list T)) (new : list T)
  : list (T * T) :=
  match old with
  | None => []
  | Some old =>
      if (length old =? length new)%nat then uptoMismatch eqFn (zip old new) else []
  end.

(** The new result differs from the last one. *)
Definition Changed (eqFn : Equality) (old : option (list T)) (new : list T) : Prop :=
  match old with
  | None => True
  | Some old =>
      length old <> length new \/
      exists i x y, old !! i = Some x /\ new !! i = Some y /\ eqFn x y = false
  end.

(** [Changed], computed. *)
Definition isChanged (eqFn : Equality) (old : option (list T)) (new : list T) : bool :=
  match old with
  | None => true
  | Some old =>
      negb ((length old =? length new)%nat
            && forallb (fun p => eqFn (fst p) (snd p)) (zip old new))
  end.

(** The result of the query of a hook on the state of its store, when
    [n] query calls were made before. *)
Definition freshResult (n : nat) (w : World) (hk : Hook) : option (list T) :=
  l ← table hk; ts ← tables w !! l; Some (queryFn hk (state ts) n).

(** A hook after a notification that left its store and query alone. *)
Definition notified (n : nat) (w : World) (hk : Hook) : Hook :=
  withOldState (freshResult n w hk) hk.

(** A hook that is bound to a store. *)
Definition live (w : World) (h : nat) : Prop :=
  exists hk l ts,
    hooks w !! h = Some hk /\ table hk = Some l /\ tables w !! l = Some ts.

(** A callback that returns, calls nothing of the engine (no method, no
    query function), and leaves stores and hooks as they are. *)
Definition quiet (callback : M unit) : Prop :=
  forall w, exists w',
    callback w = (Ok tt, w', []) /\ tables w' = tables w /\ hooks w' = hooks w /\
    queryCalls w' = queryCalls w.

(** *** useQuery *)

(** The initializer of the hook state: [new Hook(registry.get(table), queryFn, ...)]. *)
Definition useQuery_newHook (tb : Table) (q : QueryFunction) : M nat :=
  l ← TableRegistry_get tb; Hook_new l q.

(** *** createTable *)

Context `{JsRecord T}.

(** The argument of [createTable] as it is at run time: a value, or a
    function. *)
Inductive KeyOrEqualityFn : Type :=
| ArgValue (v : JsVal)
| ArgFunction (f : Equality).

Definition createComparator (keyOrEqualityFn : KeyOrEqualityFn) : Result Equality :=
  match keyOrEqualityFn with
  | ArgValue VUndefined => Ok (fun a b => sameReference a b)
  | ArgValue (VString key) =>
      Ok (fun a b => strictEquals (getProperty a key) (getProperty b key))
  | ArgFunction f => Ok f
  | ArgValue _ => Throw InvalidEqualityArgument
  end.

Definition createTable (keyOrEqualityFn : KeyOrEqualityFn)
  : M (Table * (SetStateAction -> M unit) * M unit) :=
  eqFn ← lift (createComparator keyOrEqualityFn);
  l ← TableStore_new eqFn;
  ts ← getStore l;
  TableRegistry_set (store_reference ts) l;;
  mret ({| reference := store_reference ts |},
        TableStore_setStateAction l,
        TableRegistry_delete (store_reference ts)).

(** The world after [new TableStore(eqFn)] and [registry.set]. *)
Definition created (eqFn : Equality) (w : World) : World :=
  {| registry := <[symbols w := length (tables w)]> (registry w);
     tables := tables w ++ [{| store_reference := symbols w; equalityFn := eqFn;
                               subscriber := []; state := [] |}];
     hooks := hooks w;
     symbols := S (symbols w);
     number := number w;
     queryCalls := queryCalls w |}.

(** [createTable] returned: a store that was not there before holds the
    policy [eqFn], and the registry leads to it from the handle. *)
Definition tableCreated (arg : KeyOrEqualityFn) (eqFn : Equality) (w : World) : Prop :=
  exists tb setState cleanup w' l ts,
    createTable arg w = (Ok (tb, setState, cleanup), w', []) /\
    registry w' !! reference tb = Some l /\
    tables w' !! l = Some ts /\
    tables w !! l = None /\
    equalityFn ts = eqFn.
End Engine.

(** The parts of a run. *)
Definition outcome {T A : Type} (x : Result A * World T * list (Event T)) : Result A :=
  fst (fst x).
Definition world {T A : Type} (x : Result A * World T * list (Event T)) : World T :=
  snd (fst x).
Definition trace {T A : Type} (x : Result A * World T * list (Event T)) : list (Event T) :=
  snd x.

Arguments EvTrigger {T} hook.
Arguments ArgValue {T} v.
Arguments getWorld {T}.
Arguments TableRegistry_clear {T}.
Arguments Equality T : clear implicits.
Arguments QueryFunction T : clear implicits.

(** ** Additional utility *)

Section Utility.
Variable T : Type.

(** [Predicate<T>] as [combinePredicates] sees it: a function that may
    act on some state [S] of the program when it is called. *)
Definition Predicate (S : Type) : Type := T -> S -> bool * S.

(** A predicate without side effects. *)
Definition purePredicate (S : Type) (p : T -> bool) : Predicate S :=
  fun value s => (p value, s).

(** [Comperator<T>] *)
Definition Comperator : Type := T -> T -> Z.

(** [value => p1(value) && p2(value)] *)
Definition andPredicate (S : Type) (p1 p2 : Predicate S) : Predicate S :=
  fun value s =>
    match p1 value s with
    | (true, s1) => p2 value s1
    | (false, s1) => (false, s1)
    end.

Definition combinePredicates (S : Type) (p1 p2 : option (Predicate S))
  : Result (option (Predicate S)) :=
  match p1, p2 with
  | None, None => Ok None
  | _, _ =>
      match p1, p2 with
      | Some f1, Some f2 => Ok (Some (andPredicate f1 f2))
      | _, _ =>
          match p1 with
          | Some f1 => Ok (Some f1)
          | None =>
              match p2 with
              | Some f2 => Ok (Some f2)
              | None => Throw InternalInvariantViolation
              end
          end
      end
  end.

(** The first stage of the query function: filter, then sort. *)
Definition filterAndSort (where_ : option (T -> bool)) (order : option Comperator)
    (state : list T) : list T :=
  match where_ with
  | None =>
      match order with
      | Some cmp => Array_sort (fun x y => cmp x y) state
      | None => state
      end
  | Some p =>
      let s := List.filter (fun v => p v) state in
      match order with
      | Some cmp => Array_sort (fun x y => cmp x y) s
      | None => s
      end
  end.

(** The test that guards the call of [slice]. *)
Definition needsSlice (off lim : Z) (state : list T) : bool :=
  (off >? 0) || (lim <? Z.of_nat (length state)).

(** The function returned builds no record: its result is made of
    records of [state]. *)
Definition createDefaultQueryFunction (where_ : option (T -> bool))
    (order : option Comperator) (offset limit : option Z) : list T -> list T :=
  fun state =>
    let state := filterAndSort where_ order state in
    let off := default 0 offset in
    let lim := default (Z.of_nat (length state)) limit in
    if needsSlice off lim state then Array_slice state off (off + lim) else state.

(** A consistent comparator, as the language defines it for [sort]. *)
Record ConsistentComparator (cmp : Comperator) : Prop := {
  cmp_refl : forall a, cmp a a = 0;
  cmp_sym : forall a b, cmp a b = 0 -> cmp b a = 0;
  cmp_eq_trans : forall a b c, cmp a b = 0 -> cmp b c = 0 -> cmp a c = 0;
  cmp_lt_trans : forall a b c, cmp a b < 0 -> cmp b c < 0 -> cmp a c < 0;
  cmp_gt_trans : forall a b c, cmp a b > 0 -> cmp b c > 0 -> cmp a c > 0;
  cmp_flip : forall a b, cmp a b < 0 <-> cmp b a > 0
}.

Definition consistentOrder (order : option Comperator) : Prop :=
  match order with
  | Some cmp => ConsistentComparator cmp
  | None => True
  end.

Definition nonNegative (n : option Z) : Prop :=
  match n with
  | Some z => 0 <= z
  | None => True
  end.

(** [sorted] is the stable ascending sort of [base] by [cmp]. *)
Definition StableSortOf (cmp : Comperator) (base sorted : list T) : Prop :=
  Permutation sorted base /\
  StronglySorted (fun a b => cmp a b <= 0) sorted /\
  forall x, List.filter (fun y => cmp x y =? 0) sorted
            = List.filter (fun y => cmp x y =? 0) base.
End Utility.

(** ** More of the engine and of the utility *)

Section MoreEngine.
Variable T : Type.

(** Every key of the registry is a symbol that was made. *)
Definition registryFresh (w : World T) : Prop :=
  forall k l, registry w !! k = Some l -> (k < symbols w)%nat.

(** The first render of [useQuery]: the initializer of the hook state
    runs, then the memoized [hook.executeQuery(queryFn)]. *)
Definition useQuery_firstRender (tb : Table) (q : QueryFunction T) : M T (nat * list T) :=
  h ← useQuery_newHook tb q;
  r ← Hook_executeQuery h q;
  mret (h, r).

(** The result of the query of hook [s], called after [n] query calls,
    differs from its last result. *)
Definition stale (eqFn : Equality T) (n : nat) (w : World T) (s : nat) : bool :=
  match hooks w !! s with
  | Some hk =>
      match freshResult n w hk with
      | Some new => isChanged eqFn (oldState hk) new
      | None => false
      end
  | None => false
  end.

(** The hooks of [arr] whose result differs from their last result when
    their queries are called one after the other, the first of them
    after [n] query calls. *)
Fixpoint changedFrom (eqFn : Equality T) (w : World T) (n : nat) (arr : list nat)
  : list nat :=
  match arr with
  | [] => []
  | s :: rest =>
      (if stale eqFn n w s then [s] else []) ++ changedFrom eqFn w (S n) rest
  end.

(** The world in which the fan-out of a mutation starts. *)
Definition installed (l : nat) (a : SetStateAction T) (w : World T) : World T :=
  match tables w !! l with
  | Some ts => setTables (alter (withState (applyAction a (state ts))) l) w
  | None => w
  end.

(** The hook after [executeQuery(q)] returned [r]. *)
Definition queried (q : QueryFunction T) (r : list T) (hk : Hook T) : Hook T :=
  {| table := table hk; queryFn := q; oldState := Some r |}.
End MoreEngine.

(** The counter of hook [x] after its callback ran once. *)
Definition bumped (m : gmap nat nat) (x : nat) : option nat :=
  Some (S (default 0%nat (m !! x))).

Section MoreUtility.
Variable T : Type.

(** A predicate that acts on no state, as a function to [boolean]. *)
Definition runPure (p : Predicate T unit) : T -> bool := fun v => fst (p v tt).

(** The query function that [useMany] binds. *)
Definition useMany_query (relationWhere where_ : option (T -> bool))
    (order : option (Comperator T)) (offset limit : option Z)
  : Result (list T -> list T) :=
  match combinePredicates (option_map (purePredicate (S:=unit)) relationWhere)
                          (option_map (purePredicate (S:=unit)) where_) with
  | Ok combinedWhere =>
      Ok (createDefaultQueryFunction (option_map runPure combinedWhere)
            order offset limit)
  | Throw e => Throw e
  end.

(** The query function that [useSingle] binds. *)
Definition useSingle_query (where_ : T -> bool) (order : option (Comperator T))
    (offset : option Z) : list T -> list T :=
  createDefaultQueryFunction (Some where_) order offset (Some 1%Z).

(** [result.length > 0 ? result[0] : undefined] *)
Definition useSingle_result (result : list T) : option T :=
  match result with
  | x :: _ => Some x
  | [] => None
  end.

(** The predicate [useMany] filters by. *)
Definition bothWhere (relationWhere where_ : option (T -> bool)) : option (T -> bool) :=
  match relationWhere, where_ with
  | Some p1, Some p2 => Some (fun v => p1 v && p2 v)
  | Some p1, None => Some p1
  | None, Some p2 => Some p2
  | None, None => None
  end.

(** The query function that [useAll] binds. *)
Definition useAll_query : list T -> list T := fun array => array.
End MoreUtility.

(** ** Sample data *)

Definition mkRecord (r : nat) (n : Z) (active : bool) : JsObject :=
  {| ref := r;
     properties := <["n" := VNumber n]> (<["active" := VBool active]> ∅) |}.

Definition sampleRecords : list JsObject :=
  [mkRecord 0 3 true; mkRecord 1 1 true; mkRecord 2 5 false; mkRecord 3 2 true].

(** [v => v.active] *)
Definition isActive (v : JsObject) : bool := toBoolean (getProperty v "active").

Definition toInteger (x : JsVal) : Z :=
  match x with
  | VNumber z => z
  | _ => 0
  end.

(** [(a, b) => a.n - b.n] *)
Definition byN (a b : JsObject) : Z :=
  toInteger (getProperty a "n") - toInteger (getProperty b "n").

(** ** Sample worlds *)

Definition emptyWorld : World JsObject :=
  {| registry := ∅; tables := []; hooks := []; symbols := 0; number := ∅;
     queryCalls := 0 |}.

(** Callbacks: the hook made first unsubscribes itself, the others do
    what [useQuery] has them do. *)
Definition leavingFirst (hook : nat) : M JsObject unit :=
  match hook with
  | O => Hook_unsubscribe 0
  | _ => useQuery_rerender hook
  end.

(** A table with three hooks, subscribed in the order they were made. *)
Definition threeSubscribers
  : M JsObject (SetStateAction JsObject -> M JsObject unit) :=
  '(tb, setState, _) ← createTable leavingFirst (ArgValue VUndefined);
  h0 ← useQuery_newHook tb (plainQuery (fun arr => arr));
  h1 ← useQuery_newHook tb (plainQuery (fun arr => arr));
  h2 ← useQuery_newHook tb (plainQuery (fun arr => arr));
  Hook_subscribe h0;; Hook_subscribe h1;; Hook_subscribe h2;;
  mret setState.

(** One mutation of that table. *)
Definition mutateThree : M JsObject unit :=
  setState ← threeSubscribers; setState (NewState sampleRecords).

(** A table with one hook that was subscribed twice. *)
Definition subscribedTwice
  : M JsObject (SetStateAction JsObject -> M JsObject unit) :=
  '(tb, setState, _) ← createTable (@useQuery_rerender JsObject) (ArgValue VUndefined);
  h ← useQuery_newHook tb (plainQuery (fun arr => arr));
  Hook_subscribe h;; Hook_subscribe h;;
  mret setState.

Definition mutateTwice : M JsObject unit :=
  setState ← subscribedTwice; setState (NewState sampleRecords).

(** The same kind of world, written out. *)
Definition boundHook (old : option (list JsObject)) : Hook JsObject :=
  {| table := Some 0%nat; queryFn := plainQuery (fun arr => arr); oldState := old |}.

Definition demoStore (subs : list nat) : TableStore JsObject :=
  {| store_reference := 0; equalityFn := fun a b => sameReference a b;
     subscriber := subs; state := sampleRecords |}.

Definition demoWorld (subs : list nat) : World JsObject :=
  {| registry := {[0%nat := 0%nat]}; tables := [demoStore subs];
     hooks := [boundHook None; boundHook (Some sampleRecords); boundHook None];
     symbols := 1; number := ∅; queryCalls := 0 |}.

(** Callbacks: the hook made second throws, the others do what
    [useQuery] has them do. *)
Definition throwingSecond (hook : nat) : M JsObject unit :=
  match hook with
  | 1%nat => throw TypeError
  | _ => useQuery_rerender hook
  end.

(** [arr => arr.map(x => ({...x}))]: each call builds a copy of every
    record.  The copies made by the call after [n] calls have the
    references from [100 * (n + 1)] on; the sample records have
    references below [100]. *)
Definition copyRecords : QueryFunction JsObject :=
  fun arr n =>
    map (fun x => {| ref := 100 * S n + ref x; properties := properties x |}) arr.

(** The sample table with one hook, whose query copies the records. *)
Definition copyingWorld : World JsObject :=
  {| registry := {[0%nat := 0%nat]}; tables := [demoStore [0%nat]];
     hooks := [{| table := Some 0%nat; queryFn := copyRecords; oldState := None |}];
     symbols := 1; number := ∅; queryCalls := 0 |}.

(** * Properties *)

(** ** combinePredicates *)

Section CombinePredicates.
Variables T S : Type.
Implicit Types p : Predicate T S.

Lemma andPredicate_false p1 p2 x s s1 :
  p1 x s = (false, s1) -> andPredicate p1 p2 x s = (false, s1).
Proof. unfold andPredicate. now intros ->. Qed.

Lemma andPredicate_true p1 p2 x s s1 :
  p1 x s = (true, s1) -> andPredicate p1 p2 x s = p2 x s1.
Proof. unfold andPredicate. now intros ->. Qed.

(** On predicates without side effects the conjunction is [&&]. *)
Lemma andPredicate_pure (f g : T -> bool) x s :
  andPredicate (purePredicate (S:=S) f) (purePredicate (S:=S) g) x s
  = (f x && g x, s).
Proof. unfold andPredicate, purePredicate. now destruct (f x). Qed.

(** C7: both absent gives [undefined]; one present gives that very
    predicate; both present gives the conjunction, [p1] being called
    first and [p2] only when [p1] held, on the state [p1] left. *)
Theorem combinePredicates_spec :
  combinePredicates (T:=T) (S:=S) None None = Ok None /\
  (forall p, combinePredicates (Some p) None = Ok (Some p)) /\
  (forall p, combinePredicates None (Some p) = Ok (Some p)) /\
  (forall p1 p2, exists p,
      combinePredicates (Some p1) (Some p2) = Ok (Some p) /\
      (forall x s, fst (p x s) = fst (p1 x s) && fst (p2 x (snd (p1 x s)))) /\
      (forall x s, fst (p1 x s) = false -> p x s = p1 x s) /\
      (forall x s, fst (p1 x s) = true -> p x s = p2 x (snd (p1 x s)))).
Proof.
  repeat split; try reflexivity.
  intros p1 p2. exists (andPredicate p1 p2). repeat split.
  - intros x s. unfold andPredicate. destruct (p1 x s) as [[] s1]; reflexivity.
  - intros x s. destruct (p1 x s) as [b s1] eqn:E. simpl. intros ->.
    now apply andPredicate_false.
  - intros x s. destruct (p1 x s) as [b s1] eqn:E. simpl. intros ->.
    now apply andPredicate_true.
Qed.

(** C9: whatever the two optional predicates are, the call returns;
    the final branch, which throws, is not reached. *)
Theorem combinePredicates_never_throws (p1 p2 : option (Predicate T S)) :
  exists r, combinePredicates p1 p2 = Ok r.
Proof. destruct p1, p2; simpl; eauto. Qed.
End CombinePredicates.

(** ** createDefaultQueryFunction *)

Section QueryFunction.
Variable T : Type.
Implicit Types cmp : Comperator T.
Implicit Types arr base sorted : list T.

Lemma consistent_le_trans cmp (C : ConsistentComparator cmp) a b c :
  cmp a b <= 0 -> cmp b c <= 0 -> cmp a c <= 0.
Proof.
  intros Hab Hbc.
  destruct (Z.lt_trichotomy (cmp a c) 0) as [Hlt | [Heq | Hgt]]; [lia | lia |].
  exfalso.
  assert (Hca : cmp c a < 0) by (apply (cmp_flip C); lia).
  destruct (Z.eq_dec (cmp a b) 0) as [Eab | Nab];
    destruct (Z.eq_dec (cmp b c) 0) as [Ebc | Nbc].
  - pose proof (cmp_eq_trans C _ _ _ Eab Ebc). lia.
  - assert (Hba : cmp b a < 0) by (apply (cmp_lt_trans C) with c; lia).
    apply (cmp_flip C) in Hba. lia.
  - assert (Hcb : cmp c b < 0) by (apply (cmp_lt_trans C) with a; lia).
    apply (cmp_flip C) in Hcb. lia.
  - pose proof (cmp_lt_trans C a b c). lia.
Qed.

Lemma consistent_total cmp (C : ConsistentComparator cmp) a b :
  ~ cmp a b <= 0 -> cmp b a <= 0.
Proof.
  intros Hab. assert (Hba : cmp b a < 0) by (apply (cmp_flip C); lia). lia.
Qed.

Lemma sortInsert_perm cmp x sorted :
  Permutation (sortInsert cmp x sorted) (x :: sorted).
Proof.
  induction sorted as [| y rest IH]; simpl; [reflexivity |].
  destruct (cmp x y <=? 0); [reflexivity |].
  rewrite IH. apply perm_swap.
Qed.

Lemma Array_sort_perm cmp arr : Permutation (Array_sort cmp arr) arr.
Proof.
  induction arr as [| x arr IH]; simpl; [reflexivity |].
  rewrite sortInsert_perm. now constructor.
Qed.

Lemma sortInsert_sorted cmp (C : ConsistentComparator cmp) x sorted :
  StronglySorted (fun a b => cmp a b <= 0) sorted ->
  StronglySorted (fun a b => cmp a b <= 0) (sortInsert cmp x sorted).
Proof.
  induction sorted as [| y rest IH]; simpl; intros Hs.
  - repeat constructor.
  - inversion Hs as [| ? ? Hrest Hall]; subst.
    destruct (Z.leb_spec (cmp x y) 0) as [Hle | Hgt].
    + constructor; [assumption |]. constructor; [assumption |].
      eapply Forall_impl; [exact Hall |]. simpl.
      intros z Hyz. now apply (consistent_le_trans C) with y.
    + constructor; [now apply IH |].
      rewrite sortInsert_perm. constructor; [| assumption].
      apply (consistent_total C). lia.
Qed.

Lemma Array_sort_sorted cmp (C : ConsistentComparator cmp) arr :
  StronglySorted (fun a b => cmp a b <= 0) (Array_sort cmp arr).
Proof.
  induction arr as [| x arr IH]; simpl; [constructor |].
  now apply sortInsert_sorted.
Qed.

Lemma sortInsert_stable cmp (C : ConsistentComparator cmp) k x sorted :
  List.filter (fun y => cmp k y =? 0) (sortInsert cmp x sorted)
  = List.filter (fun y => cmp k y =? 0) (x :: sorted).
Proof.
  induction sorted as [| y rest IH]; [reflexivity |].
  cbn [sortInsert]. destruct (Z.leb_spec (cmp x y) 0) as [Hle | Hgt]; [reflexivity |].
  cbn [List.filter] in *. rewrite IH.
  destruct (Z.eqb_spec (cmp k x) 0) as [Ex | Nx];
    destruct (Z.eqb_spec (cmp k y) 0) as [Ey | Ny]; try reflexivity.
  exfalso. apply (cmp_sym C) in Ex.
  pose proof (cmp_eq_trans C _ _ _ Ex Ey). lia.
Qed.

Lemma Array_sort_stable cmp (C : ConsistentComparator cmp) k arr :
  List.filter (fun y => cmp k y =? 0) (Array_sort cmp arr)
  = List.filter (fun y => cmp k y =? 0) arr.
Proof.
  induction arr as [| x arr IH]; [reflexivity |].
  cbn [Array_sort foldr]. rewrite (sortInsert_stable C).
  cbn [List.filter]. fold (Array_sort cmp arr). now rewrite IH.
Qed.

Lemma Array_sort_StableSortOf cmp (C : ConsistentComparator cmp) arr :
  StableSortOf cmp arr (Array_sort cmp arr).
Proof.
  split; [apply Array_sort_perm |].
  split; [now apply Array_sort_sorted |].
  intros x. now apply Array_sort_stable.
Qed.

(** [slice] with an offset and a limit that are not negative. *)
Lemma Array_slice_offset_limit arr off lim :
  0 <= off -> 0 <= lim ->
  Array_slice arr off (off + lim) = take (Z.to_nat lim) (drop (Z.to_nat off) arr).
Proof.
  intros Hoff Hlim. unfold Array_slice, relativeIndex.
  destruct (Z.ltb_spec off 0) as [? | _]; [lia |].
  destruct (Z.ltb_spec (off + lim) 0) as [? | _]; [lia |].
  destruct (Z_lt_le_dec off (Z.of_nat (length arr))) as [Hin | Hout].
  - rewrite (Z.min_l off) by lia.
    destruct (Z_le_gt_dec (off + lim) (Z.of_nat (length arr))) as [Hfit | Hover].
    + rewrite Z.min_l by lia. f_equal. lia.
    + rewrite Z.min_r by lia.
      rewrite !take_ge; [reflexivity | |]; rewrite length_drop; lia.
  - rewrite (Z.min_r off) by lia.
    rewrite !(drop_ge arr) by lia. now rewrite !take_nil.
Qed.

(** C4: the query function filters by [where] keeping the order (or
    keeps the sequence when [where] is absent), sorts the outcome stably
    and ascending by [order] when it is present, and returns the slice
    at [offset] (default 0) of [limit] elements (default: what is left
    after the offset); with offset 0 and a limit that is not below the
    length no slice is taken; on the sample records it yields the
    records with [n = 2] and [n = 3]. *)
Theorem createDefaultQueryFunction_spec
    (where_ : option (T -> bool)) (order : option (Comperator T))
    (offset limit : option Z) (state : list T) :
  consistentOrder order -> nonNegative offset -> nonNegative limit ->
  let base := match where_ with
              | Some p => List.filter p state
              | None => state
              end in
  let staged := filterAndSort where_ order state in
  let off := default 0 offset in
  let len := Z.of_nat (length staged) in
  match order with
  | Some cmp => StableSortOf cmp base staged
  | None => staged = base
  end /\
  createDefaultQueryFunction where_ order offset limit state
  = take (Z.to_nat (default (len - off) limit)) (drop (Z.to_nat off) staged) /\
  (off = 0 -> len <= default len limit ->
   needsSlice off (default len limit) staged = false /\
   createDefaultQueryFunction where_ order offset limit state = staged) /\
  createDefaultQueryFunction (Some isActive) (Some byN) (Some 1) (Some 2)
    sampleRecords
  = [mkRecord 3 2 true; mkRecord 0 3 true].
Proof.
  intros Horder Hoff Hlim base staged off len.
  assert (Hoff0 : 0 <= off) by (subst off; destruct offset; simpl in *; lia).
  assert (Hlim0 : 0 <= default len limit)
    by (subst len; destruct limit; simpl in *; lia).
  split; [| split; [| split]].
  - subst base staged. unfold filterAndSort.
    destruct where_, order; simpl in *; try reflexivity;
      now apply Array_sort_StableSortOf.
  - unfold createDefaultQueryFunction. fold staged. fold off. fold len.
    unfold needsSlice. fold len.
    destruct (Z.gtb_spec off 0) as [Hpos | Hzero];
      [| destruct (Z.ltb_spec (default len limit) len) as [Hless | Hall] ]; simpl.
    + rewrite Array_slice_offset_limit by assumption.
      destruct limit as [lim |]; simpl; [reflexivity |].
      destruct (Z_lt_le_dec off len).
      * rewrite !take_ge; [reflexivity | |]; rewrite length_drop; lia.
      * rewrite !(drop_ge staged) by lia. now rewrite !take_nil.
    + rewrite Array_slice_offset_limit by assumption.
      destruct limit as [lim |]; simpl in *; [reflexivity | lia].
    + assert (off = 0) as -> by lia. simpl. rewrite drop_0.
      rewrite take_ge; [reflexivity |].
      destruct limit as [lim |]; simpl in *; lia.
  - intros Hz Hge. unfold createDefaultQueryFunction.
    fold staged. fold off. fold len.
    assert (Hn : needsSlice off (default len limit) staged = false).
    { unfold needsSlice. fold len. rewrite Hz.
      destruct (Z.ltb_spec (default len limit) len); [lia | reflexivity]. }
    now rewrite Hn.
  - vm_compute. reflexivity.
Qed.

End QueryFunction.

Lemma Zsub_consistent : ConsistentComparator (fun a b : Z => a - b).
Proof. constructor; intros; lia. Defined.

Lemma createDefaultQueryFunction_spec_witness :
  consistentOrder (Some (fun a b : Z => a - b)) /\
  nonNegative (Some 1) /\
  createDefaultQueryFunction (Some (fun z => 0 <? z)) (Some (fun a b => a - b))
    (Some 1) None [3; -1; 1; 2]
  = [2; 3].
Proof.
  split; [exact Zsub_consistent |]. split; [simpl; lia |].
  destruct (@createDefaultQueryFunction_spec Z (Some (fun z => 0 <? z))
              (Some (fun a b => a - b)) (Some 1) None [3; -1; 1; 2]
              Zsub_consistent ltac:(simpl; lia) I) as (_ & E & _).
  exact E.
Defined.

(** ** The engine *)

Section EngineFacts.
Variable T : Type.
Variable triggerRerender : nat -> M T unit.
Implicit Types w : World T.
Implicit Types eqFn : Equality T.
Implicit Types hk : Hook T.
Implicit Types ts : TableStore T.

Lemma bind_ok A B (m : M T A) (f : A -> M T B) w a w1 t1 :
  m w = (Ok a, w1, t1) ->
  (m ≫= f) w = (let '(r, w2, t2) := f a w1 in (r, w2, t1 ++ t2)).
Proof. intros E. unfold mbind, M_bind. now rewrite E. Qed.

Lemma bind_throw A B (m : M T A) (f : A -> M T B) w e w1 t1 :
  m w = (Throw e, w1, t1) -> (m ≫= f) w = (Throw e, w1, t1).
Proof. intros E. unfold mbind, M_bind. now rewrite E. Qed.

Lemma getHook_run h w hk : hooks w !! h = Some hk -> getHook h w = (Ok hk, w, []).
Proof. intros E. unfold getHook, getWorld, mbind, M_bind. now rewrite E. Qed.

Lemma getStore_run l w ts : tables w !! l = Some ts -> getStore l w = (Ok ts, w, []).
Proof. intros E. unfold getStore, getWorld, mbind, M_bind. now rewrite E. Qed.

Lemma derefTable_run hk l w : table hk = Some l -> derefTable hk w = (Ok l, w, []).
Proof. intros E. unfold derefTable. now rewrite E. Qed.

Lemma TableStore_executeQuery_run l q w ts :
  tables w !! l = Some ts ->
  TableStore_executeQuery l q w
  = (Ok (q (state ts) (queryCalls w)), setQueryCalls S w, []).
Proof.
  intros E. unfold TableStore_executeQuery.
  erewrite bind_ok by (apply getStore_run; eassumption). reflexivity.
Qed.

Lemma arrayEquals_loop_run eqFn arr1 arr2 w :
  arrayEquals_loop arr1 arr2 eqFn w
  = (Ok (forallb (fun p => eqFn (fst p) (snd p)) (zip arr1 arr2)), w,
     map (@evEquality T) (uptoMismatch eqFn (zip arr1 arr2))).
Proof.
  revert arr2. induction arr1 as [| x arr1 IH]; intros [| y arr2]; try reflexivity.
  cbn [arrayEquals_loop]. unfold mbind, M_bind, emit. 
  destruct (eqFn x y) eqn:E; simpl.
  - rewrite IH. simpl. rewrite E. reflexivity.
  - rewrite E. reflexivity.
Qed.

Lemma diff_run eqFn old new w :
  (match old with
   | None => mret true
   | Some old => same ← Hook_arrayEquals old new eqFn; mret (negb same)
   end) w
  = (Ok (isChanged eqFn old new), w, map (@evEquality T) (comparedPairs eqFn old new)).
Proof.
  destruct old as [old |]; [| reflexivity].
  unfold Hook_arrayEquals, isChanged, comparedPairs, mbind, M_bind.
  destruct (length old =? length new)%nat; simpl; [| reflexivity].
  rewrite arrayEquals_loop_run. simpl. now rewrite app_nil_r.
Qed.


Lemma Hook_rerender_run eqFn h w hk l ts :
  hooks w !! h = Some hk -> table hk = Some l -> tables w !! l = Some ts ->
  let new := queryFn hk (state ts) (queryCalls w) in
  let pre := EvRerender h eqFn
             :: map (@evEquality T) (comparedPairs eqFn (oldState hk) new) in
  Hook_rerender triggerRerender eqFn h w
  = if isChanged eqFn (oldState hk) new then
      match triggerRerender h (setQueryCalls S w) with
      | (Ok _, w1, t1) =>
          (Ok tt, setHooks (alter (withOldState (Some new)) h) w1,
           pre ++ EvTrigger h :: t1)
      | (Throw e, w1, t1) => (Throw e, w1, pre ++ EvTrigger h :: t1)
      end
    else (Ok tt, setHooks (alter (withOldState (Some new)) h) (setQueryCalls S w),
          pre).
Proof.
  intros Hh Hl Hts new pre. unfold Hook_rerender.
  erewrite bind_ok by reflexivity.
  erewrite bind_ok by (apply getHook_run; eassumption).
  erewrite bind_ok by (apply derefTable_run; eassumption).
  erewrite bind_ok by (apply TableStore_executeQuery_run; eassumption).
  erewrite bind_ok by (apply diff_run).
  fold new. destruct (isChanged eqFn (oldState hk) new).
  - unfold mbind, M_bind, emit, modify.
    destruct (triggerRerender h (setQueryCalls S w)) as [[[[] | e] w1] t1]; simpl;
      now rewrite ?app_nil_r.
  - unfold mbind, M_bind, emit, modify, mret, M_ret. simpl. now rewrite ?app_nil_r.
Qed.

(** Reading traces. *)
Lemma visited_app (t1 t2 : list (Event T)) : visited (t1 ++ t2) = visited t1 ++ visited t2.
Proof. apply omap_app. Qed.
Lemma policies_app (t1 t2 : list (Event T)) : policies (t1 ++ t2) = policies t1 ++ policies t2.
Proof. apply omap_app. Qed.
Lemma triggered_app (t1 t2 : list (Event T)) : triggered (t1 ++ t2) = triggered t1 ++ triggered t2.
Proof. apply omap_app. Qed.
Lemma comparisons_app (t1 t2 : list (Event T)) :
  comparisons (t1 ++ t2) = comparisons t1 ++ comparisons t2.
Proof. apply omap_app. Qed.

Lemma visited_equalities (ps : list (T * T)) : visited (map (@evEquality T) ps) = [].
Proof. induction ps; [reflexivity | assumption]. Qed.
Lemma policies_equalities (ps : list (T * T)) : policies (map (@evEquality T) ps) = [].
Proof. induction ps; [reflexivity | assumption]. Qed.
Lemma triggered_equalities (ps : list (T * T)) : triggered (map (@evEquality T) ps) = [].
Proof. induction ps; [reflexivity | assumption]. Qed.
Lemma comparisons_equalities (ps : list (T * T)) :
  comparisons (map (@evEquality T) ps) = ps.
Proof.
  induction ps as [| [x y] ps IH]; [reflexivity |].
  cbn. unfold comparisons in IH. now rewrite IH.
Qed.

Lemma visited_notification h eqFn ps (rest : list (Event T)) :
  visited (EvRerender h eqFn :: map (@evEquality T) ps ++ rest) = h :: visited rest.
Proof.
  change (visited ([EvRerender h eqFn] ++ (map (@evEquality T) ps ++ rest))
          = h :: visited rest).
  now rewrite !visited_app, visited_equalities.
Qed.

Lemma policies_notification h eqFn ps (rest : list (Event T)) :
  policies (EvRerender h eqFn :: map (@evEquality T) ps ++ rest)
  = eqFn :: policies rest.
Proof.
  change (policies ([EvRerender h eqFn] ++ (map (@evEquality T) ps ++ rest))
          = eqFn :: policies rest).
  now rewrite !policies_app, policies_equalities.
Qed.

Lemma triggered_notification h eqFn ps (rest : list (Event T)) :
  triggered (EvRerender h eqFn :: map (@evEquality T) ps ++ rest) = triggered rest.
Proof.
  change (triggered ([EvRerender h eqFn] ++ (map (@evEquality T) ps ++ rest))
          = triggered rest).
  now rewrite !triggered_app, triggered_equalities.
Qed.

Lemma comparisons_notification h eqFn ps (rest : list (Event T)) :
  comparisons (EvRerender h eqFn :: map (@evEquality T) ps ++ rest)
  = ps ++ comparisons rest.
Proof.
  change (comparisons ([EvRerender h eqFn] ++ (map (@evEquality T) ps ++ rest))
          = ps ++ comparisons rest).
  now rewrite !comparisons_app, comparisons_equalities.
Qed.

(** Worlds that agree on the stores give a hook the same fresh result. *)
Lemma notified_tables n w w' hk :
  tables w' = tables w -> notified n w' hk = notified n w hk.
Proof. intros E. unfold notified, freshResult. now rewrite E. Qed.

(** Of two notifications the later one decides. *)
Lemma notified_idem n m w hk : notified n w (notified m w hk) = notified n w hk.
Proof. reflexivity. Qed.

Lemma notified_live n w h hk l ts :
  hooks w !! h = Some hk -> table hk = Some l -> tables w !! l = Some ts ->
  notified n w hk = withOldState (Some (queryFn hk (state ts) n)) hk.
Proof.
  intros _ Hl Hts. unfold notified, freshResult. rewrite Hl. simpl.
  now rewrite Hts.
Qed.

Lemma live_preserved w w' h :
  (forall l, is_Some (tables w !! l) -> is_Some (tables w' !! l)) ->
  (forall hk, hooks w !! h = Some hk ->
              exists hk', hooks w' !! h = Some hk' /\ table hk' = table hk) ->
  live w h -> live w' h.
Proof.
  intros Ht Hh (hk & l & ts & Ehk & El & Ets).
  destruct (Hh _ Ehk) as (hk' & Ehk' & Et).
  destruct (Ht l) as [ts' Ets']; [eauto |].
  exists hk', l, ts'. rewrite Et. auto.
Qed.

Lemma Hook_rerender_quiet eqFn h w :
  live w h -> quiet (triggerRerender h) ->
  exists w' t,
    Hook_rerender triggerRerender eqFn h w = (Ok tt, w', t) /\
    tables w' = tables w /\
    hooks w' = alter (notified (queryCalls w) w) h (hooks w) /\
    queryCalls w' = S (queryCalls w) /\
    visited t = [h] /\ policies t = [eqFn].
Proof.
  intros (hk & l & ts & Ehk & El & Ets) Hq.
  rewrite (Hook_rerender_run eqFn _ _ Ehk El Ets).
  destruct (Hq (setQueryCalls S w)) as (w1 & Ecb & Et & Eh & Ec).
  cbn [tables hooks queryCalls setQueryCalls] in Et, Eh, Ec.
  assert (Ealter : alter (withOldState (Some (queryFn hk (state ts) (queryCalls w))))
                     h (hooks w)
                   = alter (notified (queryCalls w) w) h (hooks w)).
  { apply list_alter_ext; [| reflexivity].
    intros x Ex. assert (x = hk) as -> by congruence.
    symmetry. now apply notified_live with h l. }
  destruct (isChanged eqFn (oldState hk) (queryFn hk (state ts) (queryCalls w))).
  - rewrite Ecb. eexists _, _. split; [reflexivity |].
    cbn [tables hooks queryCalls setHooks]. rewrite Et, Eh, Ec, Ealter.
    cbn [app]. repeat split.
    + now rewrite visited_notification.
    + now rewrite policies_notification.
  - eexists _, _. split; [reflexivity |].
    cbn [tables hooks queryCalls setHooks setQueryCalls]. rewrite Ealter.
    rewrite <- (app_nil_r (map _ _)). repeat split.
    + now rewrite visited_notification.
    + now rewrite policies_notification.
Qed.

Lemma forEach_loop_S l (f : nat -> M T unit) n k w :
  forEach_loop l f (S n) k w
  = match subscriberArray l w !! k with
    | Some s => (f s ;; forEach_loop l f n (S k)) w
    | None => forEach_loop l f n (S k) w
    end.
Proof.
  cbn [forEach_loop]. erewrite bind_ok by reflexivity.
  destruct (subscriberArray l w !! k) as [s |].
  - now destruct ((f s ;; forEach_loop l f n (S k)) w) as [[r w1] t1].
  - erewrite bind_ok by reflexivity.
    now destruct (forEach_loop l f n (S k) w) as [[r w1] t1].
Qed.

Lemma subscriberArray_tables l w w' :
  tables w' = tables w -> subscriberArray l w' = subscriberArray l w.
Proof. unfold subscriberArray. now intros ->. Qed.

(** The fan-out over an array that no callback changes: the hooks
    stored at the indices passed are notified in order, each with one
    query call; a hook is left with the result of its last call. *)
Lemma forEach_stable eqFn l arr n :
  forall k w,
    subscriberArray l w = arr ->
    (forall s, s ∈ take n (drop k arr) -> live w s /\ quiet (triggerRerender s)) ->
    exists w' t,
      forEach_loop l (Hook_rerender triggerRerender eqFn) n k w = (Ok tt, w', t) /\
      tables w' = tables w /\
      queryCalls w' = (queryCalls w + length (take n (drop k arr)))%nat /\
      (forall s, s ∉ take n (drop k arr) -> hooks w' !! s = hooks w !! s) /\
      (forall s, s ∈ take n (drop k arr) ->
                 exists i, take n (drop k arr) !! i = Some s /\
                           hooks w' !! s
                           = notified (queryCalls w + i)%nat w <$> hooks w !! s) /\
      visited t = take n (drop k arr) /\
      policies t = replicate (length (take n (drop k arr))) eqFn.
Proof.
  induction n as [| n IH]; intros k w Harr Hall.
  - exists w, []. rewrite take_0. repeat split; try (simpl; lia).
    intros s Hs. now apply elem_of_nil in Hs.
  - destruct (arr !! k) as [s |] eqn:Ek.
    + rewrite (drop_S _ _ _ Ek) in *. cbn [take] in *.
      destruct (Hall s) as [Hlive Hquiet]; [left |].
      destruct (Hook_rerender_quiet eqFn Hlive Hquiet)
        as (w1 & t1 & Erun & Et1 & Eh1 & Ec1 & Ev1 & Ep1).
      destruct (IH (S k) w1) as (w2 & t2 & Erun2 & Et2 & Ec2 & Eo2 & Eh2 & Ev2 & Ep2).
      { rewrite <- Harr. now apply subscriberArray_tables. }
      { intros s' Hs'. destruct (Hall s') as [Hl' Hq']; [now right |].
        split; [| assumption].
        apply live_preserved with w; [now rewrite Et1 | | assumption].
        intros hk Ehk. rewrite Eh1, list_lookup_alter.
        case_decide; subst; rewrite Ehk; simpl; eauto. }
      assert (Hn : forall m hk, notified m w1 hk = notified m w hk)
        by (intros m hk; now apply notified_tables).
      exists w2, (t1 ++ t2). split; [| split; [| split; [| split; [| split; [| split]]]]].
      * rewrite forEach_loop_S, Harr, Ek.
        erewrite bind_ok by exact Erun. now rewrite Erun2.
      * congruence.
      * rewrite Ec2, Ec1. cbn [length]. lia.
      * intros s' Hs'. rewrite not_elem_of_cons in Hs'. destruct Hs' as [Hne Hnin].
        rewrite (Eo2 _ Hnin), Eh1, list_lookup_alter_ne by congruence. reflexivity.
      * intros s' Hs'.
        destruct (decide (s' ∈ take n (drop (S k) arr))) as [Hin | Hnin].
        -- destruct (Eh2 _ Hin) as (i & Ei & Ehi). exists (S i). split; [exact Ei |].
           rewrite Ehi, Eh1, Ec1, list_lookup_alter.
           replace (queryCalls w + S i)%nat with (S (queryCalls w) + i)%nat by lia.
           case_decide; subst; destruct (hooks w !! _); simpl; rewrite ?Hn; reflexivity.
        -- apply elem_of_cons in Hs'. destruct Hs' as [-> | Hin]; [| contradiction].
           exists 0%nat. split; [reflexivity |].
           rewrite (Eo2 _ Hnin), Eh1, list_lookup_alter_eq, Nat.add_0_r. reflexivity.
      * now rewrite visited_app, Ev1, Ev2.
      * now rewrite policies_app, Ep1, Ep2.
    + assert (Hdrop : drop k arr = []).
      { apply drop_ge. now apply lookup_ge_None. }
      assert (Hdrop' : drop (S k) arr = []).
      { apply drop_ge. apply lookup_ge_None in Ek. lia. }
      rewrite Hdrop in *. rewrite take_nil in *.
      destruct (IH (S k) w Harr) as (w2 & t2 & Erun2 & Et2 & Ec2 & Eo2 & Eh2 & Ev2 & Ep2).
      { rewrite Hdrop', take_nil. intros s Hs. now apply elem_of_nil in Hs. }
      rewrite Hdrop', take_nil in *.
      exists w2, t2. split; [| auto 10].
      now rewrite forEach_loop_S, Harr, Ek.
Qed.

Lemma SubscriberCollection_rerender_stable eqFn l w :
  (forall s, s ∈ subscriberArray l w -> live w s /\ quiet (triggerRerender s)) ->
  exists w' t,
    SubscriberCollection_rerender triggerRerender l eqFn w = (Ok tt, w', t) /\
    tables w' = tables w /\
    queryCalls w' = (queryCalls w + length (subscriberArray l w))%nat /\
    (forall s, s ∉ subscriberArray l w -> hooks w' !! s = hooks w !! s) /\
    (forall s, s ∈ subscriberArray l w ->
               exists i, subscriberArray l w !! i = Some s /\
                         hooks w' !! s = notified (queryCalls w + i)%nat w <$> hooks w !! s) /\
    visited t = subscriberArray l w /\
    policies t = replicate (length (subscriberArray l w)) eqFn.
Proof.
  intros Hall. unfold SubscriberCollection_rerender, Array_forEach.
  erewrite bind_ok by reflexivity.
  destruct (@forEach_stable eqFn l (subscriberArray l w)
              (length (subscriberArray l w)) 0%nat w eq_refl)
    as (w' & t & Erun & Et & Ec & Eo & Eh & Ev & Ep).
  { rewrite drop_0, firstn_all. exact Hall. }
  rewrite drop_0, firstn_all in *.
  exists w', t. rewrite Erun. auto 10.
Qed.

Lemma live_alter_tables (f : TableStore T -> TableStore T) l w h :
  live w h -> live (setTables (alter f l) w) h.
Proof.
  apply live_preserved.
  - intros l' [ts Ets]. cbn [tables setTables].
    rewrite list_lookup_alter. case_decide; subst; rewrite Ets; simpl; eauto.
  - intros hk Ehk. exists hk. auto.
Qed.

(** A mutation of a store whose subscribers have quiet callbacks. *)
Lemma TableStore_setStateAction_run l a w ts :
  tables w !! l = Some ts ->
  (forall s, s ∈ subscriber ts -> live w s /\ quiet (triggerRerender s)) ->
  let new := applyAction a (state ts) in
  exists w' t,
    TableStore_setStateAction triggerRerender l a w = (Ok tt, w', t) /\
    tables w' !! l = Some (withState new ts) /\
    queryCalls w' = (queryCalls w + length (subscriber ts))%nat /\
    visited t = subscriber ts /\
    policies t = replicate (length (subscriber ts)) (equalityFn ts) /\
    (forall s hk, s ∈ subscriber ts -> hooks w !! s = Some hk -> table hk = Some l ->
                  exists i, subscriber ts !! i = Some s /\
                            hooks w' !! s
                            = Some (withOldState
                                      (Some (queryFn hk new (queryCalls w + i)%nat)) hk)).
Proof.
  intros Hts Hall new.
  set (w0 := setTables (alter (withState new) l) w).
  assert (Hts0 : tables w0 !! l = Some (withState new ts)).
  { subst w0. cbn [tables setTables]. now rewrite list_lookup_alter_eq, Hts. }
  assert (Harr : subscriberArray l w0 = subscriber ts).
  { unfold subscriberArray. now rewrite Hts0. }
  destruct (SubscriberCollection_rerender_stable (equalityFn ts) l (w := w0))
    as (w' & t & Erun & Et & Ec & Eo & Eh & Ev & Ep).
  { rewrite Harr. intros s Hs. destruct (Hall s Hs) as [Hl Hq].
    split; [| assumption]. now apply live_alter_tables. }
  rewrite Harr in *.
  exists w', t. split; [| split; [| split; [| split; [| split]]]]; try assumption.
  - unfold TableStore_setStateAction, TableStore_rerender.
    erewrite bind_ok by (apply getStore_run; eassumption).
    erewrite bind_ok by reflexivity. fold new. fold w0.
    erewrite bind_ok by (apply getStore_run; eassumption).
    cbn [equalityFn withState]. now rewrite Erun.
  - now rewrite Et.
  - intros s hk Hs Ehk El. destruct (Eh _ Hs) as (i & Ei & Ehi).
    exists i. split; [exact Ei |]. rewrite Ehi.
    replace (hooks w0) with (hooks w) by reflexivity.
    replace (queryCalls w0) with (queryCalls w) by reflexivity.
    rewrite Ehk. simpl.
    f_equal. unfold notified, freshResult. rewrite El.
    cbn [mbind option_bind]. now rewrite Hts0.
Qed.

(** C8: a mutation installs its sequence as the state of the store:
    the sequence given, or what the updater given returns for the old
    state.  It then enters [rerender] of every subscribed hook, in
    order, with the equality policy of the store, and every hook is left
    with the result of its query on the state installed.  Nothing of
    this depends on the new sequence being different from the old
    one. *)
Theorem setStateAction_notifies l a w ts :
  tables w !! l = Some ts ->
  (forall s, s ∈ subscriber ts -> live w s /\ quiet (triggerRerender s)) ->
  exists w' t ts',
    TableStore_setStateAction triggerRerender l a w = (Ok tt, w', t) /\
    tables w' !! l = Some ts' /\
    (forall st, a = NewState st -> state ts' = st) /\
    (forall f, a = Updater f -> state ts' = f (state ts)) /\
    equalityFn ts' = equalityFn ts /\
    subscriber ts' = subscriber ts /\
    visited t = subscriber ts /\
    policies t = replicate (length (subscriber ts)) (equalityFn ts) /\
    (forall s hk, s ∈ subscriber ts -> hooks w !! s = Some hk -> table hk = Some l ->
                  exists i, subscriber ts !! i = Some s /\
                            hooks w' !! s
                            = Some (withOldState
                                      (Some (queryFn hk (state ts') (queryCalls w + i)%nat))
                                      hk)).
Proof.
  intros Hts Hall.
  destruct (TableStore_setStateAction_run l a Hts Hall)
    as (w' & t & Erun & Est & Ec & Ev & Ep & Eh).
  exists w', t, (withState (applyAction a (state ts)) ts).
  split; [exact Erun |]. split; [exact Est |].
  split; [now intros st -> |]. split; [now intros f -> |].
  split; [reflexivity |]. split; [reflexivity |].
  split; [exact Ev |]. split; [exact Ep |]. exact Eh.
Qed.

Lemma bind_ok_inv A B (m : M T A) (f : A -> M T B) w b w' t :
  (m ≫= f) w = (Ok b, w', t) ->
  exists a wa ta tb,
    m w = (Ok a, wa, ta) /\ f a wa = (Ok b, w', tb) /\ t = ta ++ tb.
Proof.
  unfold mbind, M_bind.
  destruct (m w) as [[[a | e] wa] ta] eqn:Em; [| discriminate].
  destruct (f a wa) as [[r wb] tb] eqn:Ef. intros [= -> -> <-].
  exists a, wa, ta, tb. auto.
Qed.

(** A loop of [n + m] steps is the loop of [n] steps followed by the
    loop of the [m] steps that remain. *)
Lemma forEach_loop_app l (f : nat -> M T unit) n m :
  forall k w w1 t1 r w2 t2,
    forEach_loop l f n k w = (Ok tt, w1, t1) ->
    forEach_loop l f m (k + n) w1 = (r, w2, t2) ->
    forEach_loop l f (n + m) k w = (r, w2, t1 ++ t2).
Proof.
  induction n as [| n IH]; intros k w w1 t1 r w2 t2 H1 H2.
  - injection H1 as <- <-. now rewrite Nat.add_0_r in H2.
  - replace (k + S n)%nat with (S k + n)%nat in H2 by lia.
    change (S n + m)%nat with (S (n + m)). rewrite forEach_loop_S in *.
    destruct (subscriberArray l w !! k) as [s |].
    + apply bind_ok_inv in H1 as ([] & wa & ta & tb & Ha & Hb & ->).
      erewrite bind_ok by exact Ha.
      rewrite (IH _ _ _ _ _ _ _ Hb H2). now rewrite app_assoc.
    + eauto.
Qed.

Lemma Array_indexOf_from_middle h pre post k :
  h ∉ pre ->
  Array_indexOf_from h (pre ++ h :: post) k = (k + Z.of_nat (length pre))%Z.
Proof.
  revert k. induction pre as [| x pre IH]; intros k Hn; simpl.
  - rewrite Nat.eqb_refl. lia.
  - apply not_elem_of_cons in Hn as [Hne Hn].
    destruct (Nat.eqb_spec x h) as [-> | _]; [congruence |].
    rewrite IH by assumption. lia.
Qed.

Lemma Array_indexOf_from_absent s arr k :
  s ∉ arr -> Array_indexOf_from s arr k = (-1)%Z.
Proof.
  revert k. induction arr as [| x arr IH]; intros k Hn; simpl; [reflexivity |].
  apply not_elem_of_cons in Hn as [Hne Hn].
  destruct (Nat.eqb_spec x s) as [-> | _]; [congruence |]. now apply IH.
Qed.

(** [unsubscribe] removes the first occurrence. *)
Lemma SubscriberCollection_unsubscribe_middle h pre post :
  h ∉ pre -> SubscriberCollection_unsubscribe h (pre ++ h :: post) = pre ++ post.
Proof.
  intros Hn. unfold SubscriberCollection_unsubscribe, Array_indexOf.
  rewrite Array_indexOf_from_middle by assumption.
  destruct (Z.eqb_spec (0 + Z.of_nat (length pre)) (-1)) as [? | _]; [lia |].
  cbn [negb]. unfold Array_splice.
  replace (Z.to_nat (0 + Z.of_nat (length pre))) with (length pre) by lia.
  rewrite take_app_length.
  replace (length pre + 1)%nat with (S (length pre)) by lia.
  change (pre ++ h :: post) with (pre ++ [h] ++ post).
  rewrite app_assoc.
  rewrite drop_app_length'; [reflexivity |]. rewrite length_app. simpl. lia.
Qed.

Lemma SubscriberCollection_unsubscribe_absent s arr :
  s ∉ arr -> SubscriberCollection_unsubscribe s arr = arr.
Proof.
  intros Hn. unfold SubscriberCollection_unsubscribe, Array_indexOf.
  now rewrite Array_indexOf_from_absent.
Qed.

Lemma Hook_unsubscribe_run h w hk l ts :
  hooks w !! h = Some hk -> table hk = Some l -> tables w !! l = Some ts ->
  Hook_unsubscribe h w
  = (Ok tt,
     setTables (alter (withSubscriber (SubscriberCollection_unsubscribe h)) l) w,
     []).
Proof.
  intros Hh Hl Hts. unfold Hook_unsubscribe, TableStore_unsubscribe.
  erewrite bind_ok by (apply getHook_run; eassumption).
  erewrite bind_ok by (apply derefTable_run; eassumption).
  erewrite bind_ok by (apply getStore_run; eassumption).
  reflexivity.
Qed.

Lemma forallb_zip_false eqFn (old new : list T) :
  forallb (fun p => eqFn (fst p) (snd p)) (zip old new) = false <->
  exists i x y, old !! i = Some x /\ new !! i = Some y /\ eqFn x y = false.
Proof.
  revert new. induction old as [| a old IH]; intros [| b new]; simpl.
  - split; [discriminate | intros (i & x & y & H & _); discriminate].
  - split; [discriminate | intros (i & x & y & H & _); discriminate].
  - split; [discriminate | intros (i & x & y & _ & H & _); discriminate].
  - destruct (eqFn a b) eqn:E; simpl.
    + rewrite IH. split.
      * intros (i & x & y & ?). now exists (S i), x, y.
      * intros ([| i] & x & y & Hx & Hy & Hf); simpl in *.
        -- congruence.
        -- now exists i, x, y.
    + split; [intros _ | reflexivity]. now exists 0%nat, a, b.
Qed.

Lemma isChanged_Changed eqFn old new :
  isChanged eqFn old new = true <-> Changed eqFn old new.
Proof.
  destruct old as [old |]; simpl; [| tauto].
  destruct (Nat.eqb_spec (length old) (length new)) as [El | Nl]; simpl.
  - rewrite negb_true_iff, forallb_zip_false. tauto.
  - tauto.
Qed.

Lemma isChanged_not_Changed eqFn old new :
  isChanged eqFn old new = false <-> ~ Changed eqFn old new.
Proof. rewrite <- isChanged_Changed. now destruct (isChanged eqFn old new). Qed.

(** The scan stops at the first mismatch, and goes to the end when
    there is none. *)
Lemma uptoMismatch_first eqFn (ps1 ps2 : list (T * T)) x y :
  Forall (fun p => eqFn (fst p) (snd p) = true) ps1 -> eqFn x y = false ->
  uptoMismatch eqFn (ps1 ++ (x, y) :: ps2) = ps1 ++ [(x, y)].
Proof.
  induction 1 as [| [a b] ps1 Hab _ IH]; intros Hxy; simpl in *.
  - now rewrite Hxy.
  - rewrite Hab. f_equal. now apply IH.
Qed.

Lemma uptoMismatch_all eqFn (ps : list (T * T)) :
  Forall (fun p => eqFn (fst p) (snd p) = true) ps -> uptoMismatch eqFn ps = ps.
Proof.
  induction 1 as [| [a b] ps Hab _ IH]; simpl in *; [reflexivity |].
  rewrite Hab. now f_equal.
Qed.

(** C2: a notification of a hook bound to a store compares the last
    result with the new one: no comparison when the last result is
    unset or the lengths differ, otherwise position by position up to
    the first mismatch.  When the last result is unset, the lengths
    differ or a position compares unequal, the callback is then called,
    once: the notification is the run of the callback after these
    comparisons, it ends as the callback ends, and when the callback
    returns the new result is stored.  When the last result is set and
    all positions compare equal, the callback is not called and the new
    result is stored. *)
Theorem Hook_rerender_diff eqFn h w hk l ts :
  hooks w !! h = Some hk -> table hk = Some l -> tables w !! l = Some ts ->
  let new := queryFn hk (state ts) (queryCalls w) in
  let stored := setHooks (alter (withOldState (Some new)) h) in
  exists pre,
    triggered pre = [] /\
    comparisons pre = comparedPairs eqFn (oldState hk) new /\
    (Changed eqFn (oldState hk) new ->
     Hook_rerender triggerRerender eqFn h w
     = match triggerRerender h (setQueryCalls S w) with
       | (Ok _, w1, t1) => (Ok tt, stored w1, pre ++ EvTrigger h :: t1)
       | (Throw e, w1, t1) => (Throw e, w1, pre ++ EvTrigger h :: t1)
       end) /\
    (Changed eqFn (oldState hk) new ->
     triggered (trace (triggerRerender h (setQueryCalls S w))) = [] ->
     triggered (trace (Hook_rerender triggerRerender eqFn h w)) = [h]) /\
    (~ Changed eqFn (oldState hk) new ->
     Hook_rerender triggerRerender eqFn h w
     = (Ok tt, stored (setQueryCalls S w), pre)) /\
    (forall old ps1 x y ps2,
       oldState hk = Some old -> length old = length new ->
       zip old new = ps1 ++ (x, y) :: ps2 ->
       Forall (fun p => eqFn (fst p) (snd p) = true) ps1 -> eqFn x y = false ->
       comparisons pre = ps1 ++ [(x, y)]).
Proof.
  intros Hh Hl Hts new stored.
  exists (EvRerender h eqFn
          :: map (@evEquality T) (comparedPairs eqFn (oldState hk) new)).
  rewrite (Hook_rerender_run eqFn _ _ Hh Hl Hts). fold new. fold stored.
  rewrite <- (app_nil_r (map _ _)).
  rewrite triggered_notification, comparisons_notification.
  rewrite !app_nil_r.
  split; [reflexivity |]. split; [reflexivity |]. split; [| split; [| split]].
  - intros Hc. apply isChanged_Changed in Hc. now rewrite Hc.
  - intros Hc Hcb. apply isChanged_Changed in Hc. rewrite Hc.
    destruct (triggerRerender h (setQueryCalls S w)) as [[[[] | e] w1] t1];
      cbn [trace snd] in *; cbn [app];
      rewrite triggered_notification; cbn; unfold triggered in Hcb; now rewrite Hcb.
  - intros Hc. apply isChanged_not_Changed in Hc. now rewrite Hc.
  - intros old ps1 x y ps2 Hold Hlen Hzip Heq Hne.
    rewrite Hold. unfold comparedPairs. rewrite Hlen, Nat.eqb_refl, Hzip.
    now apply uptoMismatch_first.
Qed.

Lemma forallb_zip_diag eqFn (arr : list T) :
  (forall x, eqFn x x = true) ->
  forallb (fun p => eqFn (fst p) (snd p)) (zip arr arr) = true.
Proof.
  intros Hrefl. induction arr as [| x arr IH]; simpl; [reflexivity |].
  now rewrite Hrefl.
Qed.

(** C3, as amended: whenever a notification returns, the last result of
    the hook is the new result, whether the comparison reported a change
    or not; so, with a query function that returns the same records
    whenever it is called on the same state, a reflexive equality policy
    and a callback that touches neither stores nor hooks, the second of
    two notifications in a row calls no callback. *)
Theorem Hook_rerender_twice eqFn h w hk l ts :
  hooks w !! h = Some hk -> table hk = Some l -> tables w !! l = Some ts ->
  let new := queryFn hk (state ts) (queryCalls w) in
  (forall w1 t1 hk1,
     Hook_rerender triggerRerender eqFn h w = (Ok tt, w1, t1) ->
     hooks w1 !! h = Some hk1 -> oldState hk1 = Some new) /\
  (stableQuery (queryFn hk) ->
   (forall x, eqFn x x = true) ->
   quiet (triggerRerender h) ->
   exists w1 t1 w2 t2,
     Hook_rerender triggerRerender eqFn h w = (Ok tt, w1, t1) /\
     hooks w1 !! h = Some (withOldState (Some new) hk) /\
     tables w1 = tables w /\
     Hook_rerender triggerRerender eqFn h w1 = (Ok tt, w2, t2) /\
     triggered t2 = [] /\
     hooks w2 !! h = Some (withOldState (Some new) hk)).
Proof.
  intros Hh Hl Hts new. split.
  - intros w1 t1 hk1. rewrite (Hook_rerender_run eqFn _ _ Hh Hl Hts). fold new.
    assert (Hset : forall w0 : World T,
               hooks (setHooks (alter (withOldState (Some new)) h) w0) !! h = Some hk1 ->
               oldState hk1 = Some new).
    { intros w0. cbn [hooks setHooks]. rewrite list_lookup_alter_eq.
      destruct (hooks w0 !! h) as [hk0 |]; [| discriminate].
      now intros [= <-]. }
    destruct (isChanged eqFn (oldState hk) new).
    + destruct (triggerRerender h (setQueryCalls S w)) as [[[[] | e] w0] t0];
        [| discriminate].
      intros [= <- _]. apply Hset.
    + intros [= <- _]. apply Hset.
  - intros Hstable Hrefl Hq.
    assert (Hlive : live w h) by (exists hk, l, ts; auto).
    destruct (Hook_rerender_quiet eqFn Hlive Hq)
      as (w1 & t1 & E1 & Et1 & Eh1 & Ec1 & _ & _).
    assert (Hh1 : hooks w1 !! h = Some (withOldState (Some new) hk)).
    { rewrite Eh1, list_lookup_alter_eq, Hh. simpl. f_equal.
      now apply notified_live with h l. }
    assert (Hts1 : tables w1 !! l = Some ts) by now rewrite Et1.
    exists w1, t1.
    pose proof (Hook_rerender_run eqFn _ _ Hh1 Hl Hts1) as E2.
    cbn [queryFn oldState withOldState] in E2.
    rewrite (Hstable (state ts) (queryCalls w1) (queryCalls w)) in E2. fold new in E2.
    assert (Hsame : isChanged eqFn (Some new) new = false).
    { unfold isChanged. now rewrite Nat.eqb_refl, forallb_zip_diag. }
    rewrite Hsame in E2.
    eexists _, _. split; [exact E1 |]. split; [exact Hh1 |]. split; [exact Et1 |].
    split; [exact E2 |]. split.
    + rewrite <- (app_nil_r (map _ _)). now rewrite triggered_notification.
    + cbn [hooks setHooks setQueryCalls]. rewrite list_lookup_alter_eq, Hh1. reflexivity.
Qed.

(** What the stable fan-out says of the hooks keeps them live. *)
Lemma live_after_notifications w w' (seg : list nat) h :
  tables w' = tables w ->
  (forall s, s ∉ seg -> hooks w' !! s = hooks w !! s) ->
  (forall s, s ∈ seg ->
             exists i, seg !! i = Some s /\
                       hooks w' !! s
                       = notified (queryCalls w + i)%nat w <$> hooks w !! s) ->
  live w h -> live w' h.
Proof.
  intros Et Eo Eh. apply live_preserved; [now rewrite Et |].
  intros hk Ehk. destruct (decide (h ∈ seg)) as [Hin | Hnin].
  - destruct (Eh _ Hin) as (i & _ & ->). rewrite Ehk. simpl. eauto.
  - rewrite (Eo _ Hnin). eauto.
Qed.

(** C1, as amended: when the hook [h], stored once and after the hooks
    [pre], unsubscribes itself in its callback (which is called: the
    result of its query, called after the queries of the hooks of
    [pre], differs from its last result), the fan-out returns normally;
    it enters [rerender] once for each hook of [pre], once for [h], and
    once for each hook stored after [h] except the one stored right
    after it, which is passed over; no hook is entered twice. *)
Theorem reentrant_unsubscribe eqFn l w ts pre h post hk :
  tables w !! l = Some ts ->
  subscriber ts = pre ++ h :: post ->
  NoDup (pre ++ h :: post) ->
  hooks w !! h = Some hk -> table hk = Some l ->
  Changed eqFn (oldState hk)
    (queryFn hk (state ts) (queryCalls w + length pre)%nat) ->
  (forall w0, triggerRerender h w0 = Hook_unsubscribe h w0) ->
  (forall s, s ∈ pre ++ post -> live w s /\ quiet (triggerRerender s)) ->
  exists w' t,
    SubscriberCollection_rerender triggerRerender l eqFn w = (Ok tt, w', t) /\
    visited t = pre ++ h :: drop 1 post /\
    subscriberArray l w' = pre ++ post.
Proof.
  intros Hts Hsub Hnd Hh Hl Hchanged Hcb Hall.
  assert (Harr : subscriberArray l w = pre ++ h :: post).
  { unfold subscriberArray. now rewrite Hts. }
  apply NoDup_app in Hnd as (Hnd_pre & Hdisj & Hnd_post).
  assert (Hnotin : h ∉ pre) by (intros Hin; apply (Hdisj h Hin); left).
  (* the hooks stored before [h] *)
  destruct (@forEach_stable eqFn l (pre ++ h :: post) (length pre) 0%nat w Harr)
    as (w1 & t1 & Erun1 & Et1 & Ec1 & Eo1 & Eh1 & Ev1 & _).
  { rewrite drop_0, take_app_length. intros s Hs. apply Hall.
    apply elem_of_app. now left. }
  rewrite drop_0, take_app_length in *.
  (* [h] itself, whose callback takes it out of the array *)
  assert (Hh1 : hooks w1 !! h = Some hk) by now rewrite Eo1.
  assert (Hts1 : tables w1 !! l = Some ts) by now rewrite Et1.
  set (new := queryFn hk (state ts) (queryCalls w + length pre)%nat) in *.
  set (w1' := setTables
                (alter (withSubscriber (SubscriberCollection_unsubscribe h)) l)
                (setQueryCalls S w1)).
  set (w2 := setHooks (alter (withOldState (Some new)) h) w1').
  assert (Erun2 : exists t2, Hook_rerender triggerRerender eqFn h w1 = (Ok tt, w2, t2)
                             /\ visited t2 = [h]).
  { rewrite (Hook_rerender_run eqFn _ _ Hh1 Hl Hts1). rewrite Ec1. fold new.
    apply isChanged_Changed in Hchanged. rewrite Hchanged.
    rewrite Hcb, (@Hook_unsubscribe_run h (setQueryCalls S w1) hk l ts Hh1 Hl Hts1).
    fold w1'. fold w2.
    eexists. split; [reflexivity |]. cbn [app].
    now rewrite visited_notification. }
  destruct Erun2 as (t2 & Erun2 & Ev2).
  assert (Harr2 : subscriberArray l w2 = pre ++ post).
  { unfold subscriberArray. subst w2 w1'. cbn [tables setHooks setTables setQueryCalls].
    rewrite list_lookup_alter_eq, Hts1. cbn [fmap option_fmap option_map subscriber withSubscriber].
    rewrite Hsub. now apply SubscriberCollection_unsubscribe_middle. }
  (* the hooks stored after [h], read one index too far *)
  assert (Hseg : take (length post) (drop (S (length pre)) (pre ++ post)) = drop 1 post).
  { rewrite drop_app_ge by lia.
    replace (S (length pre) - length pre)%nat with 1%nat by lia.
    apply take_ge. rewrite length_drop. lia. }
  destruct (@forEach_stable eqFn l (pre ++ post) (length post) (S (length pre)) w2 Harr2)
    as (w3 & t3 & Erun3 & Et3 & _ & _ & _ & Ev3 & _).
  { rewrite Hseg. intros s Hs.
    assert (Hin : s ∈ pre ++ post).
    { apply elem_of_app. right. exact (subseteq_drop 1 post s Hs). }
    destruct (Hall s Hin) as [Hlive Hq]. split; [| assumption].
    assert (Hlive1 : live w1 s) by (eapply live_after_notifications; eassumption).
    subst w2 w1'. apply live_preserved with w1; [| | assumption].
    - intros l' [ts' Ets']. cbn [tables setHooks setTables setQueryCalls].
      rewrite list_lookup_alter. case_decide; subst; rewrite Ets'; simpl; eauto.
    - intros hk' Ehk'. cbn [hooks setHooks setTables setQueryCalls].
      rewrite list_lookup_alter. case_decide; subst; rewrite Ehk'; simpl; eauto. }
  rewrite Hseg in *.
  exists w3, (t1 ++ t2 ++ t3). split; [| split].
  - unfold SubscriberCollection_rerender, Array_forEach.
    erewrite bind_ok by reflexivity. rewrite Harr, length_app. cbn [length].
    rewrite (forEach_loop_app _ _ _ (S (length post)) _ _ Erun1
               (r := Ok tt) (w2 := w3) (t2 := t2 ++ t3)); [reflexivity |].
    rewrite forEach_loop_S, (@subscriberArray_tables l w w1 Et1), Harr.
    rewrite Nat.add_0_l, list_lookup_middle by reflexivity.
    erewrite bind_ok by exact Erun2. now rewrite Erun3.
  - now rewrite !visited_app, Ev1, Ev2, Ev3.
  - rewrite <- Harr2. now apply subscriberArray_tables.
Qed.

Lemma withSubscriber_id (f : list nat -> list nat) ts :
  f (subscriber ts) = subscriber ts -> withSubscriber f ts = ts.
Proof. destruct ts. unfold withSubscriber. simpl. now intros ->. Qed.

Lemma setTables_id (f : TableStore T -> TableStore T) l w ts :
  tables w !! l = Some ts -> f ts = ts -> setTables (alter f l) w = w.
Proof.
  intros Hts Hf. destruct w as [reg tbs hks sy nu qc]. unfold setTables. simpl in *.
  f_equal. apply list_eq. intros i. rewrite list_lookup_alter.
  case_decide; subst; [| reflexivity]. rewrite Hts. simpl. now rewrite Hf.
Qed.

Lemma TableStore_subscribe_run l s w ts :
  tables w !! l = Some ts ->
  TableStore_subscribe l s w
  = (Ok tt, setTables (alter (withSubscriber (SubscriberCollection_subscribe s)) l) w, []).
Proof.
  intros Hts. unfold TableStore_subscribe.
  erewrite bind_ok by (apply getStore_run; eassumption). reflexivity.
Qed.

Lemma TableStore_unsubscribe_run l s w ts :
  tables w !! l = Some ts ->
  TableStore_unsubscribe l s w
  = (Ok tt, setTables (alter (withSubscriber (SubscriberCollection_unsubscribe s)) l) w, []).
Proof.
  intros Hts. unfold TableStore_unsubscribe.
  erewrite bind_ok by (apply getStore_run; eassumption). reflexivity.
Qed.

Lemma subscriberArray_alter (f : list nat -> list nat) l w ts :
  tables w !! l = Some ts ->
  subscriberArray l (setTables (alter (withSubscriber f) l) w) = f (subscriber ts).
Proof.
  intros Hts. unfold subscriberArray. cbn [tables setTables].
  now rewrite list_lookup_alter_eq, Hts.
Qed.

(** C6, as amended: the collection is an array.  [subscribe] appends
    the hook, already stored or not; [unsubscribe] of a hook that is not
    stored changes nothing; [unsubscribe] takes out the first
    occurrence; and a fan-out enters [rerender] once for each entry of
    the array. *)
Theorem subscriber_array_semantics l s w ts :
  tables w !! l = Some ts ->
  (exists w', TableStore_subscribe l s w = (Ok tt, w', []) /\
              subscriberArray l w' = subscriber ts ++ [s]) /\
  (s ∉ subscriber ts -> TableStore_unsubscribe l s w = (Ok tt, w, [])) /\
  (forall pre post, subscriber ts = pre ++ s :: post -> s ∉ pre ->
     exists w', TableStore_unsubscribe l s w = (Ok tt, w', []) /\
                subscriberArray l w' = pre ++ post) /\
  (forall eqFn,
     (forall h, h ∈ subscriber ts -> live w h /\ quiet (triggerRerender h)) ->
     exists w' t,
       SubscriberCollection_rerender triggerRerender l eqFn w = (Ok tt, w', t) /\
       visited t = subscriber ts).
Proof.
  intros Hts. split; [| split; [| split]].
  - eexists. split; [now apply TableStore_subscribe_run with ts |].
    now rewrite subscriberArray_alter with (ts := ts).
  - intros Hn. rewrite TableStore_unsubscribe_run with (ts := ts) by assumption.
    rewrite setTables_id with (ts := ts); [reflexivity | assumption |].
    apply withSubscriber_id. now apply SubscriberCollection_unsubscribe_absent.
  - intros pre post Hsub Hn.
    eexists. split; [now apply TableStore_unsubscribe_run with ts |].
    rewrite subscriberArray_alter with (ts := ts) by assumption.
    rewrite Hsub. now apply SubscriberCollection_unsubscribe_middle.
  - intros eqFn Hall.
    assert (Harr : subscriberArray l w = subscriber ts).
    { unfold subscriberArray. now rewrite Hts. }
    destruct (SubscriberCollection_rerender_stable eqFn l (w := w))
      as (w' & t & Erun & _ & _ & _ & _ & Ev & _).
    { now rewrite Harr. }
    exists w', t. now rewrite <- Harr.
Qed.
End EngineFacts.

Section CreateTable.
Context {T : Type} `{JsRecord T}.
Variable triggerRerender : nat -> M T unit.
Implicit Types w : World T.

Lemma createTable_run arg eqFn w :
  createComparator arg = Ok eqFn ->
  createTable triggerRerender arg w
  = (Ok ({| reference := symbols w |},
         TableStore_setStateAction triggerRerender (length (tables w)),
         TableRegistry_delete (symbols w)),
     created eqFn w, []).
Proof.
  intros Hcmp. unfold createTable.
  erewrite bind_ok by (unfold lift; rewrite Hcmp; reflexivity).
  erewrite bind_ok by reflexivity.
  erewrite bind_ok.
  2:{ apply getStore_run. cbn [tables]. now apply list_lookup_middle. }
  reflexivity.
Qed.

Lemma createTable_throw arg e w :
  createComparator arg = Throw e ->
  createTable triggerRerender arg w = (Throw e, w, []).
Proof.
  intros Hcmp. unfold createTable.
  erewrite bind_throw by (unfold lift; rewrite Hcmp; reflexivity). reflexivity.
Qed.

Lemma createTable_created arg eqFn w :
  createComparator arg = Ok eqFn -> tableCreated triggerRerender arg eqFn w.
Proof.
  intros Hcmp. do 6 eexists.
  split; [exact (@createTable_run arg eqFn w Hcmp) |].
  cbn [reference registry tables created].
  split; [apply lookup_insert_eq |].
  split; [now apply list_lookup_middle |].
  split; [| reflexivity]. now apply lookup_ge_None.
Qed.

(** C5: without an argument the policy of the new table is reference
    identity of the records; with a string it is strict equality of the
    values of that property; a function is the policy itself; with any
    other value [createTable] throws, and the world is as before: no
    store, no registry entry. *)
Theorem createTable_equality_policy w :
  tableCreated triggerRerender (ArgValue VUndefined) (fun a b => sameReference a b) w /\
  (forall key,
     tableCreated triggerRerender (ArgValue (VString key))
       (fun a b => strictEquals (getProperty a key) (getProperty b key)) w) /\
  (forall f, tableCreated triggerRerender (ArgFunction f) f w) /\
  (forall v, v <> VUndefined -> (forall key, v <> VString key) ->
     createComparator (T:=T) (ArgValue v) = Throw InvalidEqualityArgument /\
     createTable triggerRerender (ArgValue v) w = (Throw InvalidEqualityArgument, w, [])).
Proof.
  split; [now apply createTable_created |].
  split; [intros key; now apply createTable_created |].
  split; [intros f; now apply createTable_created |].
  intros v Hu Hs.
  assert (Hcmp : createComparator (T:=T) (ArgValue v) = Throw InvalidEqualityArgument).
  { destruct v; try reflexivity; [congruence | now destruct (Hs s)]. }
  split; [exact Hcmp | now apply createTable_throw].
Qed.

End CreateTable.

(** ** The sample worlds *)

Lemma useQuery_rerender_quiet (T : Type) (h : nat) : quiet (@useQuery_rerender T h).
Proof. intros w. eexists. repeat split. Defined.

Lemma JsObject_sameReference_refl (x : JsObject) : sameReference x x = true.
Proof. apply Nat.eqb_refl. Defined.

Lemma demoWorld_live (subs : list nat) (h : nat) :
  (h < 3)%nat -> live (demoWorld subs) h.
Proof.
  intros Hlt. destruct h as [| [| [| h]]]; [| | | lia];
    eexists _, 0%nat, (demoStore subs); repeat split.
Defined.

(** C1, refuted as stated: three hooks are subscribed, the first
    unsubscribes itself in its callback; the fan-out of one mutation
    returns normally, but it never enters [rerender] of the second hook. *)
Lemma reentrant_unsubscribe_skips_next :
  subscriberArray 0 (world (threeSubscribers emptyWorld)) = [0; 1; 2]%nat /\
  outcome (mutateThree emptyWorld) = Ok tt /\
  visited (trace (mutateThree emptyWorld)) = [0; 2]%nat /\
  ~ (forall s, s ∈ [1; 2]%nat -> s ∈ visited (trace (mutateThree emptyWorld))).
Proof.
  assert (Hv : visited (trace (mutateThree emptyWorld)) = [0; 2]%nat)
    by (vm_compute; reflexivity).
  split; [vm_compute; reflexivity |].
  split; [vm_compute; reflexivity |].
  split; [exact Hv |].
  rewrite Hv. intros Hall.
  specialize (Hall 1%nat ltac:(left)).
  apply elem_of_cons in Hall as [? | Hall]; [discriminate |].
  apply elem_of_cons in Hall as [? | Hall]; [discriminate |].
  now apply elem_of_nil in Hall.
Qed.

Lemma reentrant_unsubscribe_witness :
  exists w' t,
    SubscriberCollection_rerender leavingFirst 0 (fun a b => sameReference a b)
      (demoWorld [0; 1; 2]%nat) = (Ok tt, w', t) /\
    visited t = [0; 2]%nat /\
    subscriberArray 0 w' = [1; 2]%nat.
Proof.
  apply (@reentrant_unsubscribe JsObject leavingFirst
           (fun a b => sameReference a b) 0%nat (demoWorld [0; 1; 2]%nat)
           (demoStore [0; 1; 2]%nat) [] 0%nat [1; 2]%nat (boundHook None)).
  - reflexivity.
  - reflexivity.
  - repeat (apply NoDup_cons_2;
            [intros Hin;
             repeat (apply elem_of_cons in Hin as [Hin | Hin]; [discriminate |]);
             now apply elem_of_nil in Hin |]).
    apply NoDup_nil_2.
  - reflexivity.
  - reflexivity.
  - exact I.
  - intros w0. reflexivity.
  - intros s Hs.
    apply elem_of_cons in Hs as [-> | Hs]; [| apply elem_of_cons in Hs as [-> | Hs]].
    + split; [apply demoWorld_live; lia | apply useQuery_rerender_quiet].
    + split; [apply demoWorld_live; lia | apply useQuery_rerender_quiet].
    + now apply elem_of_nil in Hs.
Defined.

(** C6, refuted as stated: a hook subscribed twice is stored twice, and
    one mutation enters its [rerender] twice. *)
Lemma double_subscribe_notified_twice :
  subscriberArray 0 (world (subscribedTwice emptyWorld)) = [0; 0]%nat /\
  SubscriberCollection_subscribe 0 [0%nat] <> [0%nat] /\
  outcome (mutateTwice emptyWorld) = Ok tt /\
  visited (trace (mutateTwice emptyWorld)) = [0; 0]%nat.
Proof.
  split; [vm_compute; reflexivity |].
  split; [discriminate |].
  split; vm_compute; reflexivity.
Qed.

(** C3, refuted as stated: the query copies the records of the state.
    It has no side effect, and the copies it makes of a state have the
    same contents at every call.  The policy is reference identity,
    which is reflexive, and the callback is the one of [useQuery].  The
    state is the same at both notifications, and the second one calls
    the callback again. *)
Lemma copying_query_triggers_again :
  (forall x : JsObject, sameReference x x = true) /\
  (forall arr n m,
     map properties (copyRecords arr n) = map properties (copyRecords arr m)) /\
  outcome (Hook_rerender (@useQuery_rerender JsObject)
             (fun a b => sameReference a b) 0 copyingWorld) = Ok tt /\
  tables (world (Hook_rerender (@useQuery_rerender JsObject)
                   (fun a b => sameReference a b) 0 copyingWorld))
  = tables copyingWorld /\
  outcome (Hook_rerender (@useQuery_rerender JsObject)
             (fun a b => sameReference a b) 0
             (world (Hook_rerender (@useQuery_rerender JsObject)
                       (fun a b => sameReference a b) 0 copyingWorld))) = Ok tt /\
  triggered (trace (Hook_rerender (@useQuery_rerender JsObject)
                      (fun a b => sameReference a b) 0
                      (world (Hook_rerender (@useQuery_rerender JsObject)
                                (fun a b => sameReference a b) 0 copyingWorld))))
  = [0%nat].
Proof.
  split; [exact JsObject_sameReference_refl |].
  split; [intros arr n m; unfold copyRecords; now rewrite !map_map |].
  repeat split; vm_compute; reflexivity.
Qed.

Lemma subscriber_array_semantics_witness :
  exists w',
    TableStore_subscribe 0 1 (demoWorld [0; 1]%nat) = (Ok tt, w', []) /\
    subscriberArray 0 w' = [0; 1; 1]%nat.
Proof.
  destruct (@subscriber_array_semantics JsObject (@useQuery_rerender JsObject)
              0%nat 1%nat (demoWorld [0; 1]%nat) (demoStore [0; 1]%nat) eq_refl)
    as [Hsub _].
  exact Hsub.
Defined.

(** Hook 0 has no last result: its callback runs once and the result is
    stored.  Hook 1 has the records of the state as its last result: its
    callback does not run. *)
Lemma Hook_rerender_diff_witness :
  triggered (trace (Hook_rerender (@useQuery_rerender JsObject)
                      (fun a b => sameReference a b) 0 (demoWorld [0%nat]))) = [0%nat] /\
  number (world (Hook_rerender (@useQuery_rerender JsObject)
                   (fun a b => sameReference a b) 0 (demoWorld [0%nat]))) !! 0%nat
  = Some 1%nat /\
  @oldState JsObject <$> hooks (world (Hook_rerender (@useQuery_rerender JsObject)
                               (fun a b => sameReference a b) 0 (demoWorld [0%nat])))
               !! 0%nat
  = Some (Some sampleRecords) /\
  triggered (trace (Hook_rerender (@useQuery_rerender JsObject)
                      (fun a b => sameReference a b) 1 (demoWorld [1%nat]))) = [] /\
  number (world (Hook_rerender (@useQuery_rerender JsObject)
                   (fun a b => sameReference a b) 1 (demoWorld [1%nat]))) !! 1%nat
  = None.
Proof.
  destruct (@Hook_rerender_diff JsObject (@useQuery_rerender JsObject)
              (fun a b => sameReference a b) 0%nat (demoWorld [0%nat])
              (boundHook None) 0%nat (demoStore [0%nat])
              eq_refl eq_refl eq_refl)
    as (pre0 & _ & _ & Hrun0 & Honce0 & _).
  destruct (@Hook_rerender_diff JsObject (@useQuery_rerender JsObject)
              (fun a b => sameReference a b) 1%nat (demoWorld [1%nat])
              (boundHook (Some sampleRecords)) 0%nat (demoStore [1%nat])
              eq_refl eq_refl eq_refl)
    as (pre1 & Htr1 & _ & _ & _ & Hsame1 & _).
  split; [exact (Honce0 I eq_refl) |].
  rewrite (Hrun0 I).
  split; [reflexivity |]. split; [reflexivity |].
  rewrite Hsame1 by (apply isChanged_not_Changed; vm_compute; reflexivity).
  split; [exact Htr1 | reflexivity].
Defined.

(** Hook 0 of the sample table has no last result and the query
    [arr => arr]: the first notification calls the callback, the second
    one does not. *)
Lemma Hook_rerender_twice_witness :
  exists w1 t1 w2 t2,
    Hook_rerender (@useQuery_rerender JsObject) (fun a b => sameReference a b) 0
      (demoWorld [0%nat]) = (Ok tt, w1, t1) /\
    triggered t1 = [0%nat] /\
    Hook_rerender (@useQuery_rerender JsObject) (fun a b => sameReference a b) 0
      w1 = (Ok tt, w2, t2) /\
    triggered t2 = [].
Proof.
  destruct (@Hook_rerender_twice JsObject (@useQuery_rerender JsObject)
              (fun a b => sameReference a b) 0%nat (demoWorld [0%nat])
              (boundHook None) 0%nat (demoStore [0%nat])
              eq_refl eq_refl eq_refl)
    as [_ Htwice].
  destruct (Htwice (fun _ _ _ => eq_refl) JsObject_sameReference_refl
              (@useQuery_rerender_quiet JsObject 0%nat))
    as (w1 & t1 & w2 & t2 & E1 & _ & _ & E2 & Htr & _).
  exists w1, t1, w2, t2. split; [exact E1 |]. split; [| auto].
  change t1 with (trace (Ok tt, w1, t1)). now rewrite <- E1.
Defined.

(** The updater [old => old.slice(3)] on the sample table with three
    subscribers: the state installed is the last of the four records, and
    the three hooks are entered in order. *)
Lemma setStateAction_notifies_witness :
  exists w' t,
    TableStore_setStateAction (@useQuery_rerender JsObject) 0
      (Updater (drop 3)) (demoWorld [0; 1; 2]%nat) = (Ok tt, w', t) /\
    @state JsObject <$> tables w' !! 0%nat = Some [mkRecord 3 2 true] /\
    visited t = [0; 1; 2]%nat.
Proof.
  destruct (@setStateAction_notifies JsObject (@useQuery_rerender JsObject)
              0%nat (Updater (drop 3)) (demoWorld [0; 1; 2]%nat)
              (demoStore [0; 1; 2]%nat) eq_refl)
    as (w' & t & ts' & Erun & Ets & _ & Hupd & _ & _ & Ev & _).
  - intros s Hs. split; [| apply useQuery_rerender_quiet].
    apply demoWorld_live.
    apply elem_of_cons in Hs as [-> | Hs]; [lia |].
    apply elem_of_cons in Hs as [-> | Hs]; [lia |].
    apply elem_of_cons in Hs as [-> | Hs]; [lia |].
    now apply elem_of_nil in Hs.
  - exists w', t. split; [exact Erun |]. split; [| exact Ev].
    rewrite Ets. cbn [fmap option_fmap option_map].
    now rewrite (Hupd (drop 3) eq_refl).
Defined.

Lemma createTable_equality_policy_witness :
  createTable (@useQuery_rerender JsObject) (ArgValue (VNumber 5)) emptyWorld
  = (Throw InvalidEqualityArgument, emptyWorld, []).
Proof.
  destruct (@createTable_equality_policy JsObject _ (@useQuery_rerender JsObject)
              emptyWorld) as (_ & _ & _ & Hother).
  apply (Hother (VNumber 5)); [discriminate | intros key; discriminate].
Defined.


(** A predicate that counts its calls and one that would add ten to the
    count: on [-1] the conjunction leaves the count at one. *)
Lemma combinePredicates_spec_witness :
  exists p,
    combinePredicates (Some (fun (x : Z) (calls : nat) => (0 <? x, S calls)))
      (Some (fun (x : Z) (calls : nat) => (x <? 10, (calls + 10)%nat)))
    = Ok (Some p) /\
    p (-1) 0%nat = (false, 1%nat).
Proof.
  destruct (@combinePredicates_spec Z nat) as (_ & _ & _ & Hboth).
  destruct (Hboth (fun (x : Z) (calls : nat) => (0 <? x, S calls))
                  (fun (x : Z) (calls : nat) => (x <? 10, (calls + 10)%nat)))
    as (p & E & _ & Hfalse & _).
  exists p. split; [exact E |].
  apply (Hfalse (-1) 0%nat). reflexivity.
Defined.

(** * Further properties *)

Unset Implicit Arguments.
Local Close Scope Z_scope.

Section RegistryFacts.
Variable T : Type.
Implicit Types w : World T.

(** X1: in the registry, [get] after [set] of a handle gives the store
    that was set and leaves the other handles as they were; [get] after
    [delete] of a handle gives [undefined] and leaves the others; [get]
    after [clear] gives [undefined] for every handle. *)
Theorem TableRegistry_roundtrip (k l : nat) w :
  (TableRegistry_set k l;; TableRegistry_get {| reference := k |}) w
  = (Ok (Some l), setRegistry (insert k l) w, []) /\
  (forall k', k' <> k ->
     outcome ((TableRegistry_set k l;; TableRegistry_get {| reference := k' |}) w)
     = Ok (registry w !! k')) /\
  (TableRegistry_delete k;; TableRegistry_get {| reference := k |}) w
  = (Ok None, setRegistry (delete k) w, []) /\
  (forall k', k' <> k ->
     outcome ((TableRegistry_delete k;; TableRegistry_get {| reference := k' |}) w)
     = Ok (registry w !! k')) /\
  (forall k', (TableRegistry_clear;; TableRegistry_get {| reference := k' |}) w
              = (Ok None, setRegistry (fun _ => ∅) w, [])).
Proof.
  unfold TableRegistry_set, TableRegistry_delete, TableRegistry_clear,
    TableRegistry_get, modify, getWorld, outcome, mbind, M_bind, mret, M_ret.
  cbn [registry setRegistry reference fst snd app].
  split; [now rewrite lookup_insert_eq |].
  split; [intros k' Hne; now rewrite lookup_insert_ne |].
  split; [now rewrite lookup_delete_eq |].
  split; [intros k' Hne; now rewrite lookup_delete_ne |].
  intros k'. now rewrite lookup_empty.
Qed.
End RegistryFacts.

Section HandleFacts.
Context {T : Type} `{JsRecord T}.
Variable triggerRerender : nat -> M T unit.
Implicit Types w : World T.

Lemma registryFresh_created eqFn w : registryFresh w -> registryFresh (created eqFn w).
Proof.
  intros Hf k l. cbn [registry symbols created].
  rewrite lookup_insert. case_decide as Hk.
  - subst. lia.
  - intros Hl. apply Hf in Hl. lia.
Qed.

Lemma registryFresh_setRegistry_delete k w :
  registryFresh w -> registryFresh (setRegistry (delete k) w).
Proof.
  intros Hf k' l. cbn [registry symbols setRegistry].
  rewrite lookup_delete. case_decide; [discriminate |]. apply Hf.
Qed.

(** X2: when every key of the registry is a symbol made before,
    [createTable] returns a handle that the registry did not hold, keeps
    every other entry, every store and every hook, and keeps that
    invariant, also after the cleanup; a second [createTable] returns a
    different handle, leading to a different store, and the first handle
    still resolves as before. *)
Theorem createTable_fresh_handle arg eqFn w :
  registryFresh w ->
  createComparator arg = Ok eqFn ->
  exists tb setState cleanup w',
    createTable triggerRerender arg w = (Ok (tb, setState, cleanup), w', []) /\
    registry w !! reference tb = None /\
    (forall k, k <> reference tb -> registry w' !! k = registry w !! k) /\
    (forall l ts, tables w !! l = Some ts -> tables w' !! l = Some ts) /\
    hooks w' = hooks w /\
    registryFresh w' /\
    registryFresh (world (cleanup w')) /\
    (forall arg2 eqFn2, createComparator arg2 = Ok eqFn2 ->
       exists tb2 setState2 cleanup2 w'',
         createTable triggerRerender arg2 w' = (Ok (tb2, setState2, cleanup2), w'', []) /\
         reference tb2 <> reference tb /\
         registry w'' !! reference tb = registry w' !! reference tb /\
         registry w'' !! reference tb2 <> registry w'' !! reference tb).
Proof.
  intros Hf Hcmp. do 4 eexists.
  split; [exact (@createTable_run T _ triggerRerender arg eqFn w Hcmp) |].
  cbn [reference registry tables hooks created].
  split.
  { destruct (registry w !! symbols w) as [l |] eqn:E; [| reflexivity].
    apply Hf in E. lia. }
  split; [intros k Hk; now rewrite lookup_insert_ne |].
  split; [intros l ts Hl; rewrite lookup_app_l; [exact Hl | now apply lookup_lt_Some in Hl] |].
  split; [reflexivity |].
  split; [now apply registryFresh_created |].
  split.
  { unfold TableRegistry_delete, modify, world. cbn [fst snd].
    now apply registryFresh_setRegistry_delete, registryFresh_created. }
  intros arg2 eqFn2 Hcmp2. do 4 eexists.
  split; [exact (@createTable_run T _ triggerRerender arg2 eqFn2 (created eqFn w) Hcmp2) |].
  cbn [reference registry tables hooks symbols created].
  split; [lia |].
  split; [rewrite (lookup_insert_ne (<[symbols w:=length (tables w)]> (registry w))) by lia;
          reflexivity |].
  rewrite lookup_insert_eq.
  rewrite (lookup_insert_ne (<[symbols w:=length (tables w)]> (registry w))) by lia.
  rewrite lookup_insert_eq, length_app. cbn [length]. intros [= E]. lia.
Qed.

(** X3: a hook made by [useQuery] for a handle that the registry does
    not hold has no store: the first render throws a [TypeError], and so
    do [executeQuery], [subscribe], [unsubscribe] and [rerender] of such
    a hook, leaving the world as it was. *)
Theorem unknown_handle_TypeError (tb : Table) (q : QueryFunction T) w :
  registry w !! reference tb = None ->
  exists h wh,
    useQuery_newHook tb q w = (Ok h, wh, []) /\
    hooks wh !! h = Some {| table := None; queryFn := q; oldState := None |} /\
    tables wh = tables w /\
    useQuery_firstRender tb q w = (Throw TypeError, wh, []) /\
    forall w1 hk, hooks w1 !! h = Some hk -> table hk = None ->
      (forall q', Hook_executeQuery h q' w1 = (Throw TypeError, w1, [])) /\
      Hook_subscribe h w1 = (Throw TypeError, w1, []) /\
      Hook_unsubscribe h w1 = (Throw TypeError, w1, []) /\
      (forall eqFn, Hook_rerender triggerRerender eqFn h w1
                    = (Throw TypeError, w1, [EvRerender h eqFn])).
Proof.
  intros Hreg.
  assert (Hnew : useQuery_newHook tb q w
                 = (Ok (length (hooks w)),
                    setHooks (fun hs => hs ++ [{| table := None; queryFn := q;
                                                  oldState := None |}]) w, [])).
  { unfold useQuery_newHook, TableRegistry_get.
    erewrite (bind_ok (T:=T)).
    2:{ erewrite (bind_ok (T:=T)) by reflexivity. rewrite Hreg. reflexivity. }
    reflexivity. }
  assert (Hthrow : forall h w1 hk, hooks w1 !! h = Some hk -> table hk = None ->
            (forall q', Hook_executeQuery h q' w1 = (Throw TypeError, w1, [])) /\
            Hook_subscribe h w1 = (Throw TypeError, w1, []) /\
            Hook_unsubscribe h w1 = (Throw TypeError, w1, []) /\
            (forall eqFn, Hook_rerender triggerRerender eqFn h w1
                          = (Throw TypeError, w1, [EvRerender h eqFn]))).
  { intros h w1 hk Hh Ht.
    assert (Hd : derefTable hk w1 = (Throw TypeError, w1, []))
      by (unfold derefTable; now rewrite Ht).
    split; [| split; [| split]].
    - intros q'. unfold Hook_executeQuery.
      erewrite (bind_ok (T:=T)) by (apply getHook_run; eassumption).
      now erewrite (bind_throw (T:=T)) by exact Hd.
    - unfold Hook_subscribe.
      erewrite (bind_ok (T:=T)) by (apply getHook_run; eassumption).
      now erewrite (bind_throw (T:=T)) by exact Hd.
    - unfold Hook_unsubscribe.
      erewrite (bind_ok (T:=T)) by (apply getHook_run; eassumption).
      now erewrite (bind_throw (T:=T)) by exact Hd.
    - intros eqFn. unfold Hook_rerender.
      erewrite (bind_ok (T:=T)) by reflexivity.
      erewrite (bind_ok (T:=T)) by (apply getHook_run; eassumption).
      now erewrite (bind_throw (T:=T)) by exact Hd. }
  eexists _, _. split; [exact Hnew |].
  assert (Hlk : hooks (setHooks (fun hs => hs ++ [{| table := None; queryFn := q;
                                                      oldState := None |}]) w)
                !! length (hooks w)
                = Some {| table := None; queryFn := q; oldState := None |}).
  { cbn [hooks setHooks]. now apply list_lookup_middle. }
  split; [exact Hlk |].
  split; [reflexivity |].
  split.
  - unfold useQuery_firstRender.
    erewrite (bind_ok (T:=T)) by exact Hnew.
    destruct (Hthrow _ _ _ Hlk eq_refl) as [Hex _].
    now erewrite (bind_throw (T:=T)) by apply Hex.
  - apply Hthrow.
Qed.
End HandleFacts.

(** X7: an array without repeated hooks stays without repeats when a hook
    that is not in it subscribes and when any hook unsubscribes; after
    [unsubscribe] the hook is not in the array and every other hook is in
    it exactly if it was before. *)
Theorem subscriber_NoDup_invariant (s : nat) (arr : list nat) :
  NoDup arr ->
  (s ∉ arr -> NoDup (SubscriberCollection_subscribe s arr)) /\
  NoDup (SubscriberCollection_unsubscribe s arr) /\
  (s ∉ SubscriberCollection_unsubscribe s arr) /\
  (forall s', s' <> s ->
     (s' ∈ SubscriberCollection_unsubscribe s arr <-> s' ∈ arr)).
Proof.
  intros Hnd. split.
  { intros Hn. unfold SubscriberCollection_subscribe.
    apply NoDup_app. repeat split; [assumption | | apply NoDup_singleton].
    intros x Hx Hx'. apply list_elem_of_singleton in Hx'. now subst. }
  destruct (decide (s ∈ arr)) as [Hin | Hout].
  - apply list_elem_of_split in Hin as (pre & post & ->).
    apply NoDup_app in Hnd as (Hpre & Hdisj & Hpost).
    apply NoDup_cons in Hpost as [Hnpost Hpost].
    assert (Hnpre : s ∉ pre) by (intros Hin; apply (Hdisj s Hin); left).
    rewrite SubscriberCollection_unsubscribe_middle by assumption.
    split; [| split].
    + apply NoDup_app. repeat split; try assumption.
      intros x Hx Hx'. apply (Hdisj x Hx). now right.
    + rewrite elem_of_app. tauto.
    + intros s' Hne. rewrite !elem_of_app, elem_of_cons. tauto.
  - rewrite SubscriberCollection_unsubscribe_absent by assumption.
    split; [assumption |]. split; [assumption |]. tauto.
Qed.

Section HookFacts.
Variable T : Type.
Variable triggerRerender : nat -> M T unit.
Implicit Types w : World T.
Implicit Types eqFn : Equality T.
Implicit Types hk : Hook T.
Implicit Types ts : TableStore T.

Lemma alter_alter_hooks (f g : Hook T -> Hook T) h w :
  setHooks (alter f h) (setHooks (alter g h) w) = setHooks (alter (f ∘ g) h) w.
Proof.
  unfold setHooks. cbn [registry tables hooks symbols number queryCalls]. f_equal.
  apply list_alter_alter_eq.
Qed.


Lemma Hook_executeQuery_run h q w hk l ts :
  hooks w !! h = Some hk -> table hk = Some l -> tables w !! l = Some ts ->
  Hook_executeQuery h q w
  = (Ok (q (state ts) (queryCalls w)),
     setHooks (alter (queried q (q (state ts) (queryCalls w))) h) (setQueryCalls S w),
     []).
Proof.
  intros Hh Hl Hts. unfold Hook_executeQuery.
  erewrite (bind_ok (T:=T)) by (apply getHook_run; eassumption).
  erewrite (bind_ok (T:=T)) by (apply derefTable_run; eassumption).
  erewrite (bind_ok (T:=T)) by reflexivity.
  erewrite (bind_ok (T:=T)) by (apply TableStore_executeQuery_run; eassumption).
  erewrite (bind_ok (T:=T)) by reflexivity.
  cbn [app mret M_ret]. do 2 f_equal.
  unfold setHooks, setQueryCalls. cbn [registry tables hooks symbols number queryCalls].
  f_equal. apply list_alter_alter_eq.
Qed.

(** X4: [executeQuery(q)] on a hook bound to a store returns [q] of the
    state, remembers [q] and that result in the hook, calls no callback
    and changes nothing else: no other hook, no store, not the registry. *)
Theorem Hook_executeQuery_spec h q w hk l ts :
  hooks w !! h = Some hk -> table hk = Some l -> tables w !! l = Some ts ->
  exists w',
    Hook_executeQuery h q w = (Ok (q (state ts) (queryCalls w)), w', []) /\
    hooks w' !! h = Some {| table := Some l; queryFn := q;
                            oldState := Some (q (state ts) (queryCalls w)) |} /\
    (forall h', h' <> h -> hooks w' !! h' = hooks w !! h') /\
    tables w' = tables w /\ registry w' = registry w /\ number w' = number w.
Proof.
  intros Hh Hl Hts. eexists.
  split; [now apply Hook_executeQuery_run with hk l |].
  cbn [hooks tables registry number setHooks setQueryCalls].
  split; [rewrite list_lookup_alter_eq, Hh; cbn; unfold queried; now rewrite Hl |].
  split; [intros h' Hne; now rewrite list_lookup_alter_ne |].
  auto.
Qed.

Lemma Forall_zip_diag eqFn (arr : list T) :
  (forall x, eqFn x x = true) ->
  Forall (fun p => eqFn (fst p) (snd p) = true) (zip arr arr).
Proof.
  intros Hrefl. induction arr as [| x arr IH]; constructor; [apply Hrefl | exact IH].
Qed.

(** X5: for a query function that returns the same records whenever it
    is called on the same state, a notification that follows an
    on-demand read with no mutation in between calls no callback when
    the equality policy is reflexive, whatever the callback is and
    whatever the hook remembered before; it compares the result with
    itself, position by position. *)
Theorem executeQuery_then_notify eqFn h q w hk l ts :
  hooks w !! h = Some hk -> table hk = Some l -> tables w !! l = Some ts ->
  stableQuery q ->
  (forall x, eqFn x x = true) ->
  let r := q (state ts) (queryCalls w) in
  exists w' t,
    (Hook_executeQuery h q;; Hook_rerender triggerRerender eqFn h) w = (Ok tt, w', t) /\
    triggered t = [] /\
    comparisons t = zip r r /\
    hooks w' !! h = Some (queried q r hk).
Proof.
  intros Hh Hl Hts Hstable Hrefl r.
  set (w1 := setHooks (alter (queried q r) h) (setQueryCalls S w)).
  assert (Hh1 : hooks w1 !! h = Some (queried q r hk)).
  { subst w1. cbn [hooks setHooks setQueryCalls]. now rewrite list_lookup_alter_eq, Hh. }
  assert (Hts1 : tables w1 !! l = Some ts) by exact Hts.
  pose proof (@Hook_rerender_run T triggerRerender eqFn h w1 (queried q r hk) l ts
                Hh1 Hl Hts1) as Erun.
  cbn [queryFn oldState queried] in Erun.
  rewrite (Hstable (state ts) (queryCalls w1) (queryCalls w)) in Erun. fold r in Erun.
  assert (Hsame : isChanged eqFn (Some r) r = false).
  { unfold isChanged. now rewrite Nat.eqb_refl, forallb_zip_diag. }
  rewrite Hsame in Erun.
  eexists _, _. split.
  { erewrite (bind_ok (T:=T))
      by exact (@Hook_executeQuery_run h q w hk l ts Hh Hl Hts).
    fold r. fold w1. rewrite Erun. reflexivity. }
  cbn [app].
  rewrite <- (app_nil_r (map _ _)).
  rewrite triggered_notification, comparisons_notification, !app_nil_r.
  split; [reflexivity |]. split.
  - unfold comparedPairs. rewrite Nat.eqb_refl. apply uptoMismatch_all.
    now apply Forall_zip_diag.
  - cbn [hooks setHooks setQueryCalls]. rewrite list_lookup_alter_eq, Hh1. reflexivity.
Qed.

Lemma alter_alter_tables (f g : TableStore T -> TableStore T) l w :
  setTables (alter f l) (setTables (alter g l) w) = setTables (alter (f ∘ g) l) w.
Proof.
  unfold setTables. cbn [registry tables hooks symbols number queryCalls]. f_equal.
  apply list_alter_alter_eq.
Qed.

Lemma Hook_subscribe_run h w hk l ts :
  hooks w !! h = Some hk -> table hk = Some l -> tables w !! l = Some ts ->
  Hook_subscribe h w
  = (Ok tt, setTables (alter (withSubscriber (SubscriberCollection_subscribe h)) l) w, []).
Proof.
  intros Hh Hl Hts. unfold Hook_subscribe.
  erewrite (bind_ok (T:=T)) by (apply getHook_run; eassumption).
  erewrite (bind_ok (T:=T)) by (apply derefTable_run; eassumption).
  now rewrite (@TableStore_subscribe_run T l h w ts Hts).
Qed.

Lemma subscribe_then_unsubscribe_run h w hk l ts :
  hooks w !! h = Some hk -> table hk = Some l -> tables w !! l = Some ts ->
  (Hook_subscribe h;; Hook_unsubscribe h) w
  = (Ok tt,
     setTables (alter (withSubscriber
                         (SubscriberCollection_unsubscribe h
                          ∘ SubscriberCollection_subscribe h)) l) w, []).
Proof.
  intros Hh Hl Hts.
  erewrite (bind_ok (T:=T)) by exact (@Hook_subscribe_run h w hk l ts Hh Hl Hts).
  set (w1 := setTables (alter (withSubscriber (SubscriberCollection_subscribe h)) l) w).
  assert (Hts1 : tables w1 !! l
                 = Some (withSubscriber (SubscriberCollection_subscribe h) ts)).
  { subst w1. cbn [tables setTables]. now rewrite list_lookup_alter_eq, Hts. }
  rewrite (@Hook_unsubscribe_run T h w1 hk l _ Hh Hl Hts1).
  subst w1. now rewrite alter_alter_tables.
Qed.

(** X6: [subscribe] followed by [unsubscribe] of a hook that was not
    subscribed leaves the world exactly as it was; for a hook that was
    subscribed already, the pair takes out its first entry and leaves the
    new one at the end of the array. *)
Theorem subscribe_unsubscribe_roundtrip h w hk l ts :
  hooks w !! h = Some hk -> table hk = Some l -> tables w !! l = Some ts ->
  (h ∉ subscriber ts -> (Hook_subscribe h;; Hook_unsubscribe h) w = (Ok tt, w, [])) /\
  (forall pre post, subscriber ts = pre ++ h :: post -> h ∉ pre ->
     exists w',
       (Hook_subscribe h;; Hook_unsubscribe h) w = (Ok tt, w', []) /\
       subscriberArray l w' = pre ++ post ++ [h]).
Proof.
  intros Hh Hl Hts.
  rewrite (@subscribe_then_unsubscribe_run h w hk l ts Hh Hl Hts). split.
  - intros Hn. rewrite setTables_id with (ts := ts); [reflexivity | assumption |].
    apply withSubscriber_id. unfold compose, SubscriberCollection_subscribe.
    rewrite <- (app_nil_r (subscriber ts)) at 2.
    now apply SubscriberCollection_unsubscribe_middle.
  - intros pre post Hsub Hn. eexists. split; [reflexivity |].
    rewrite subscriberArray_alter with (ts := ts) by assumption.
    unfold compose, SubscriberCollection_subscribe. rewrite Hsub.
    rewrite <- app_assoc. cbn [app].
    now apply SubscriberCollection_unsubscribe_middle.
Qed.


(** X8: [arrayEquals] returns, changes nothing, and answers [true]
    exactly when the two arrays have one length and the policy holds at
    every position; when the lengths differ the policy is not applied at
    all, and when the answer is [true] it was applied to every position
    in order. *)
Theorem Hook_arrayEquals_spec (arr1 arr2 : list T) eqFn w :
  exists b t,
    Hook_arrayEquals arr1 arr2 eqFn w = (Ok b, w, t) /\
    (b = true <-> Forall2 (fun x y => eqFn x y = true) arr1 arr2) /\
    (length arr1 <> length arr2 -> t = []) /\
    (b = true -> comparisons t = zip arr1 arr2) /\
    visited t = [] /\ triggered t = [].
Proof.
  unfold Hook_arrayEquals.
  destruct (Nat.eqb_spec (length arr1) (length arr2)) as [Hlen | Hlen]; cbn [negb].
  - rewrite arrayEquals_loop_run. eexists _, _. split; [reflexivity |].
    rewrite comparisons_equalities, visited_equalities, triggered_equalities.
    assert (Hiff : forallb (fun p => eqFn p.1 p.2) (zip arr1 arr2) = true
                   <-> Forall2 (fun x y => eqFn x y = true) arr1 arr2).
    { clear w. revert arr2 Hlen.
      induction arr1 as [| x arr1 IH]; intros [| y arr2] Hlen; try discriminate.
      - split; [constructor | reflexivity].
      - cbn. rewrite andb_true_iff, IH by (simpl in Hlen; lia).
        split.
        + intros [Hxy Hrest]. now constructor.
        + intros Hall. inversion Hall; subst. auto. }
    split; [exact Hiff |]. split; [intros Hne; contradiction |].
    split; [| auto].
    intros Hb. apply uptoMismatch_all. apply Hiff in Hb.
    clear Hiff Hlen. induction Hb; constructor; auto.
  - eexists _, _. split; [reflexivity |].
    split; [| repeat split; try reflexivity; discriminate].
    split; [discriminate |].
    intros Hall. apply Forall2_length in Hall. contradiction.
Qed.
End HookFacts.

Section FanOutFacts.
Variable T : Type.
Variable triggerRerender : nat -> M T unit.
Implicit Types w : World T.
Implicit Types eqFn : Equality T.
Implicit Types hk : Hook T.
Implicit Types ts : TableStore T.

Lemma stale_live eqFn n w h hk l ts :
  hooks w !! h = Some hk -> table hk = Some l -> tables w !! l = Some ts ->
  stale eqFn n w h = isChanged eqFn (oldState hk) (queryFn hk (state ts) n).
Proof.
  intros Hh Hl Hts. unfold stale, freshResult. rewrite Hh, Hl.
  cbn [mbind option_bind]. now rewrite Hts.
Qed.

Lemma stale_ext eqFn n w w' s :
  tables w' = tables w -> hooks w' !! s = hooks w !! s ->
  stale eqFn n w' s = stale eqFn n w s.
Proof. intros Et Eh. unfold stale, freshResult. now rewrite Et, Eh. Qed.

Lemma changedFrom_ext eqFn w w' (arr : list nat) :
  tables w' = tables w ->
  (forall s, s ∈ arr -> hooks w' !! s = hooks w !! s) ->
  forall n, changedFrom eqFn w' n arr = changedFrom eqFn w n arr.
Proof.
  intros Et. induction arr as [| s arr IH]; intros Eh n; [reflexivity |].
  cbn [changedFrom]. rewrite (stale_ext eqFn n w w' s Et) by (apply Eh; left).
  rewrite IH; [reflexivity |]. intros s' Hs'. apply Eh. now right.
Qed.

Lemma changedFrom_elem_of eqFn w (arr : list nat) x :
  forall n, x ∈ changedFrom eqFn w n arr -> x ∈ arr.
Proof.
  induction arr as [| s arr IH]; intros n; cbn [changedFrom].
  - intros Hx. now apply elem_of_nil in Hx.
  - rewrite elem_of_app. intros [Hx | Hx].
    + destruct (stale eqFn n w s); [| now apply elem_of_nil in Hx].
      apply list_elem_of_singleton in Hx as ->. left.
    + right. now apply (IH (S n)).
Qed.

Lemma Hook_rerender_quiet_triggered eqFn h w :
  live w h -> quiet (triggerRerender h) ->
  exists w' t,
    Hook_rerender triggerRerender eqFn h w = (Ok tt, w', t) /\
    triggered t = if stale eqFn (queryCalls w) w h then [h] else [].
Proof.
  intros (hk & l & ts & Ehk & El & Ets) Hq.
  rewrite (@Hook_rerender_run T triggerRerender eqFn h w hk l ts Ehk El Ets).
  rewrite (stale_live eqFn (queryCalls w) w h hk l ts Ehk El Ets).
  destruct (Hq (setQueryCalls S w)) as (w1 & Ecb & _ & _).
  destruct (isChanged eqFn (oldState hk) (queryFn hk (state ts) (queryCalls w))).
  - rewrite Ecb. eexists _, _. split; [reflexivity |].
    cbn [app]. now rewrite triggered_notification.
  - eexists _, _. split; [reflexivity |].
    rewrite <- (app_nil_r (map _ _)). now rewrite triggered_notification.
Qed.

(** The callbacks called by the fan-out over an array that no callback
    changes and that holds no hook twice. *)
Lemma forEach_triggered eqFn l arr n :
  forall k w,
    subscriberArray l w = arr ->
    NoDup (take n (drop k arr)) ->
    (forall s, s ∈ take n (drop k arr) -> live w s /\ quiet (triggerRerender s)) ->
    exists w' t,
      forEach_loop l (Hook_rerender triggerRerender eqFn) n k w = (Ok tt, w', t) /\
      triggered t = changedFrom eqFn w (queryCalls w) (take n (drop k arr)).
Proof.
  induction n as [| n IH]; intros k w Harr Hnd Hall.
  - exists w, []. now rewrite take_0.
  - destruct (arr !! k) as [s |] eqn:Ek.
    + rewrite (drop_S _ _ _ Ek) in *. cbn [take] in *.
      apply NoDup_cons in Hnd as [Hnotin Hnd].
      destruct (Hall s) as [Hlive Hquiet]; [left |].
      destruct (@Hook_rerender_quiet T triggerRerender eqFn s w Hlive Hquiet)
        as (w1 & t1 & Erun & Et1 & Eh1 & Ec1 & _ & _).
      destruct (Hook_rerender_quiet_triggered eqFn s w Hlive Hquiet)
        as (w1' & t1' & Erun' & Etr1).
      rewrite Erun in Erun'. injection Erun' as <- <-.
      destruct (IH (S k) w1) as (w2 & t2 & Erun2 & Etr2).
      { rewrite <- Harr. now apply subscriberArray_tables. }
      { exact Hnd. }
      { intros s' Hs'. destruct (Hall s') as [Hl' Hq']; [now right |].
        split; [| assumption].
        apply live_preserved with w; [now rewrite Et1 | | assumption].
        intros hk Ehk. rewrite Eh1, list_lookup_alter.
        case_decide; subst; rewrite Ehk; simpl; eauto. }
      exists w2, (t1 ++ t2). split.
      * rewrite forEach_loop_S, Harr, Ek.
        erewrite (bind_ok (T:=T)) by exact Erun. now rewrite Erun2.
      * rewrite triggered_app, Etr1, Etr2, Ec1. cbn [changedFrom].
        f_equal. apply changedFrom_ext; [exact Et1 |].
        intros x Hx. rewrite Eh1. apply list_lookup_alter_ne. intros ->. contradiction.
    + assert (Hdrop : drop k arr = []).
      { apply drop_ge. now apply lookup_ge_None. }
      assert (Hdrop' : drop (S k) arr = []).
      { apply drop_ge. apply lookup_ge_None in Ek. lia. }
      rewrite Hdrop in *. rewrite take_nil in *.
      destruct (IH (S k) w Harr) as (w2 & t2 & Erun2 & Etr2).
      { rewrite Hdrop', take_nil. constructor. }
      { rewrite Hdrop', take_nil. intros s Hs. now apply elem_of_nil in Hs. }
      rewrite Hdrop', take_nil in *.
      exists w2, t2. split; [| exact Etr2].
      now rewrite forEach_loop_S, Harr, Ek.
Qed.


Lemma TableStore_setStateAction_unfold l a w ts :
  tables w !! l = Some ts ->
  TableStore_setStateAction triggerRerender l a w
  = SubscriberCollection_rerender triggerRerender l (equalityFn ts) (installed l a w).
Proof.
  intros Hts. unfold TableStore_setStateAction, TableStore_rerender, installed.
  rewrite Hts.
  erewrite (bind_ok (T:=T)) by (apply getStore_run; eassumption).
  erewrite (bind_ok (T:=T)) by reflexivity.
  erewrite (bind_ok (T:=T)).
  2:{ apply getStore_run. cbn [tables setTables].
      rewrite list_lookup_alter_eq, Hts. reflexivity. }
  cbn [equalityFn withState app].
  now destruct (SubscriberCollection_rerender _ _ _ _) as [[r w'] t].
Qed.

Lemma installed_lookup l a w ts :
  tables w !! l = Some ts ->
  tables (installed l a w) !! l = Some (withState (applyAction a (state ts)) ts) /\
  (forall l', l' <> l -> tables (installed l a w) !! l' = tables w !! l') /\
  hooks (installed l a w) = hooks w /\
  registry (installed l a w) = registry w /\
  number (installed l a w) = number w /\
  subscriberArray l (installed l a w) = subscriber ts.
Proof.
  intros Hts. unfold installed, subscriberArray. rewrite Hts.
  cbn [tables hooks registry number queryCalls setTables].
  rewrite list_lookup_alter_eq, Hts. cbn.
  repeat split. intros l' Hne. now rewrite list_lookup_alter_ne.
Qed.

Lemma installed_live l a w h : live w h -> live (installed l a w) h.
Proof.
  unfold installed. destruct (tables w !! l); [| auto].
  apply live_alter_tables.
Qed.

Lemma installed_queryCalls l a w : queryCalls (installed l a w) = queryCalls w.
Proof. unfold installed. now destruct (tables w !! l). Qed.

(** X9: when no hook is subscribed twice and the callbacks are quiet, a
    mutation calls the callbacks of exactly those subscribers whose query
    result on the new state differs from their last result, once each and
    in the order of subscription. *)
Theorem mutation_triggers_changed l a w ts :
  tables w !! l = Some ts ->
  NoDup (subscriber ts) ->
  (forall s, s ∈ subscriber ts -> live w s /\ quiet (triggerRerender s)) ->
  exists w' t,
    TableStore_setStateAction triggerRerender l a w = (Ok tt, w', t) /\
    triggered t
    = changedFrom (equalityFn ts) (installed l a w) (queryCalls w) (subscriber ts).
Proof.
  intros Hts Hnd Hall.
  destruct (installed_lookup l a w ts Hts) as (_ & _ & _ & _ & _ & Harr).
  rewrite (TableStore_setStateAction_unfold l a w ts Hts).
  unfold SubscriberCollection_rerender, Array_forEach.
  erewrite (bind_ok (T:=T)) by reflexivity. rewrite Harr.
  destruct (forEach_triggered (equalityFn ts) l (subscriber ts)
              (length (subscriber ts)) 0%nat (installed l a w) Harr)
    as (w' & t & Erun & Etr).
  { now rewrite drop_0, firstn_all. }
  { rewrite drop_0, firstn_all. intros s Hs. destruct (Hall s Hs) as [Hl Hq].
    split; [now apply installed_live | assumption]. }
  rewrite drop_0, firstn_all, installed_queryCalls in Etr.
  exists w', t. now rewrite Erun.
Qed.
End FanOutFacts.

Section MutationFacts.
Variable T : Type.
Variable triggerRerender : nat -> M T unit.
Implicit Types w : World T.
Implicit Types eqFn : Equality T.
Implicit Types hk : Hook T.
Implicit Types ts : TableStore T.

(** The world a mutation leaves when the callbacks of the subscribers
    are quiet. *)
Lemma TableStore_setStateAction_world l a w ts :
  tables w !! l = Some ts ->
  (forall s, s ∈ subscriber ts -> live w s /\ quiet (triggerRerender s)) ->
  exists w' t,
    TableStore_setStateAction triggerRerender l a w = (Ok tt, w', t) /\
    tables w' = tables (installed l a w) /\
    queryCalls w' = queryCalls w + length (subscriber ts) /\
    (forall s, s ∉ subscriber ts -> hooks w' !! s = hooks w !! s) /\
    (forall s, s ∈ subscriber ts ->
               exists i, subscriber ts !! i = Some s /\
                         hooks w' !! s
                         = notified (queryCalls w + i) (installed l a w)
                             <$> hooks w !! s) /\
    visited t = subscriber ts.
Proof.
  intros Hts Hall.
  destruct (installed_lookup T l a w ts Hts) as (_ & _ & Hhooks & _ & _ & Harr).
  rewrite (TableStore_setStateAction_unfold T triggerRerender l a w ts Hts).
  destruct (SubscriberCollection_rerender_stable (T:=T) triggerRerender
              (equalityFn ts) l (w := installed l a w))
    as (w' & t & Erun & Et & Ec & Eo & Eh & Ev & _).
  { rewrite Harr. intros s Hs. destruct (Hall s Hs) as [Hl Hq].
    split; [now apply (installed_live T) | assumption]. }
  rewrite Harr in *. rewrite Hhooks in Eo, Eh.
  rewrite (installed_queryCalls T) in Ec, Eh.
  exists w', t. auto 10.
Qed.

(** After a mutation every hook is where it was, with its store and its
    query function. *)
Lemma TableStore_setStateAction_hooks l a w w' (subs : list nat) :
  (forall s, s ∉ subs -> hooks w' !! s = hooks w !! s) ->
  (forall s, s ∈ subs ->
             exists i, subs !! i = Some s /\
                       hooks w' !! s
                       = notified (queryCalls w + i) (installed l a w) <$> hooks w !! s) ->
  forall s,
    match hooks w !! s with
    | Some hk => exists hk', hooks w' !! s = Some hk' /\
                             table hk' = table hk /\ queryFn hk' = queryFn hk
    | None => hooks w' !! s = None
    end.
Proof.
  intros Eo Eh s. destruct (decide (s ∈ subs)) as [Hin | Hnin].
  - destruct (Eh _ Hin) as (i & _ & ->).
    destruct (hooks w !! s) as [hk |]; cbn; eauto.
  - rewrite (Eo _ Hnin). destruct (hooks w !! s) as [hk |]; eauto.
Qed.

(** X11: a mutation of one store leaves every other store as it was,
    enters [rerender] of no hook outside its own subscribers and leaves
    those hooks untouched; every hook keeps its store and its query
    function; the store keeps its reference, equality policy and
    subscribers; no store and no hook is made or lost. *)
Theorem mutation_frame l a w ts :
  tables w !! l = Some ts ->
  (forall s, s ∈ subscriber ts -> live w s /\ quiet (triggerRerender s)) ->
  exists w' t,
    TableStore_setStateAction triggerRerender l a w = (Ok tt, w', t) /\
    (forall l', l' <> l -> tables w' !! l' = tables w !! l') /\
    (forall s, s ∉ subscriber ts -> hooks w' !! s = hooks w !! s) /\
    (forall s, s ∈ visited t -> s ∈ subscriber ts) /\
    (forall s hk, hooks w !! s = Some hk ->
       exists hk', hooks w' !! s = Some hk' /\
                   table hk' = table hk /\ queryFn hk' = queryFn hk) /\
    (exists ts', tables w' !! l = Some ts' /\
                 store_reference ts' = store_reference ts /\
                 equalityFn ts' = equalityFn ts /\
                 subscriber ts' = subscriber ts) /\
    length (tables w') = length (tables w) /\
    length (hooks w') = length (hooks w).
Proof.
  intros Hts Hall.
  destruct (TableStore_setStateAction_world l a w ts Hts Hall)
    as (w' & t & Erun & Et & _ & Eo & Eh & Ev).
  destruct (installed_lookup T l a w ts Hts) as (Hl & Hother & Hhooks & _ & _ & _).
  pose proof (TableStore_setStateAction_hooks l a w w' (subscriber ts) Eo Eh) as Hkeep.
  exists w', t. split; [exact Erun |].
  split; [intros l' Hne; rewrite Et; now apply Hother |].
  split; [exact Eo |].
  split; [intros s; now rewrite Ev |].
  split.
  { intros s hk Hhk. specialize (Hkeep s). now rewrite Hhk in Hkeep. }
  split.
  { exists (withState (applyAction a (state ts)) ts). rewrite Et. auto. }
  split.
  { rewrite Et. unfold installed. rewrite Hts. cbn [tables setTables].
    apply length_alter. }
  apply Nat.le_antisymm.
  - destruct (decide (length (hooks w') <= length (hooks w))%nat) as [? | Hgt]; [assumption |].
    exfalso. assert (Hlt : (length (hooks w) < length (hooks w'))%nat) by lia.
    apply lookup_lt_is_Some in Hlt as [hk' Hk'].
    assert (Hnone : hooks w !! length (hooks w) = None) by now apply lookup_ge_None.
    specialize (Hkeep (length (hooks w))). rewrite Hnone in Hkeep. congruence.
  - destruct (decide (length (hooks w) <= length (hooks w'))%nat) as [? | Hgt]; [assumption |].
    exfalso. assert (Hlt : (length (hooks w') < length (hooks w))%nat) by lia.
    apply lookup_lt_is_Some in Hlt as [hk Hk].
    assert (Hnone : hooks w' !! length (hooks w') = None) by now apply lookup_ge_None.
    specialize (Hkeep (length (hooks w'))). rewrite Hk in Hkeep.
    destruct Hkeep as (hk' & Hk' & _). congruence.
Qed.

(** X12: an on-demand read after a mutation sees the mutation:
    [executeQuery(q)] on a hook bound to the store returns [q] of the
    state the mutation installed and remembers it. *)
Theorem mutation_then_query l a w ts h hk q :
  tables w !! l = Some ts ->
  (forall s, s ∈ subscriber ts -> live w s /\ quiet (triggerRerender s)) ->
  hooks w !! h = Some hk -> table hk = Some l ->
  let r := q (applyAction a (state ts)) (queryCalls w + length (subscriber ts)) in
  exists w' t,
    (TableStore_setStateAction triggerRerender l a;; Hook_executeQuery h q) w
    = (Ok r, w', t) /\
    hooks w' !! h = Some {| table := Some l; queryFn := q; oldState := Some r |} /\
    visited t = subscriber ts.
Proof.
  intros Hts Hall Hh Hl r.
  destruct (TableStore_setStateAction_world l a w ts Hts Hall)
    as (w1 & t & Erun & Et & Ec & Eo & Eh & Ev).
  destruct (installed_lookup T l a w ts Hts) as (Hl1 & _).
  assert (Hh1 : exists hk1, hooks w1 !! h = Some hk1 /\ table hk1 = Some l).
  { pose proof (TableStore_setStateAction_hooks l a w w1 (subscriber ts) Eo Eh h) as Hk.
    rewrite Hh in Hk. destruct Hk as (hk1 & Hk1 & Ht1 & _).
    exists hk1. split; [exact Hk1 | congruence]. }
  destruct Hh1 as (hk1 & Hh1 & Hl1').
  assert (Hts1 : tables w1 !! l = Some (withState (applyAction a (state ts)) ts))
    by now rewrite Et.
  eexists _, _. split.
  { erewrite (bind_ok (T:=T)) by exact Erun.
    rewrite (Hook_executeQuery_run T h q w1 hk1 l _ Hh1 Hl1' Hts1).
    rewrite Ec. reflexivity. }
  cbn [hooks setHooks setQueryCalls state withState].
  split; [| now rewrite app_nil_r].
  rewrite list_lookup_alter_eq, Hh1. cbn. unfold queried. now rewrite Hl1'.
Qed.

(** X13: two mutations in a row compose.  The state left is the one of
    the second mutation: the sequence it gives, or what its updater
    returns for the state of the first mutation, which is the sequence
    the first one gives or what its updater returns for the old state.
    The subscribers are the same, and each of them was entered once for
    each mutation. *)
Theorem mutations_compose l a b w ts :
  tables w !! l = Some ts ->
  (forall s, s ∈ subscriber ts -> live w s /\ quiet (triggerRerender s)) ->
  exists w' t ts',
    (TableStore_setStateAction triggerRerender l a;;
     TableStore_setStateAction triggerRerender l b) w = (Ok tt, w', t) /\
    tables w' !! l = Some ts' /\
    state ts' = match b with
                | NewState st => st
                | Updater g => g match a with
                                 | NewState st => st
                                 | Updater f => f (state ts)
                                 end
                end /\
    subscriber ts' = subscriber ts /\
    visited t = subscriber ts ++ subscriber ts.
Proof.
  intros Hts Hall.
  destruct (TableStore_setStateAction_world l a w ts Hts Hall)
    as (w1 & t1 & Erun1 & Et1 & _ & Eo1 & Eh1 & Ev1).
  destruct (installed_lookup T l a w ts Hts) as (Hl1 & _).
  set (ts1 := withState (applyAction a (state ts)) ts) in *.
  assert (Hts1 : tables w1 !! l = Some ts1) by now rewrite Et1.
  destruct (TableStore_setStateAction_world l b w1 ts1 Hts1)
    as (w2 & t2 & Erun2 & Et2 & _ & _ & _ & Ev2).
  { intros s Hs. destruct (Hall s Hs) as [Hlive Hq]. split; [| assumption].
    destruct Hlive as (hk & l' & ts' & Ehk & El' & Ets').
    pose proof (TableStore_setStateAction_hooks l a w w1 (subscriber ts) Eo1 Eh1 s) as Hk.
    rewrite Ehk in Hk. destruct Hk as (hk1 & Hk1 & Ht1 & _).
    destruct (decide (l' = l)) as [-> | Hne].
    - exists hk1, l, ts1. split; [exact Hk1 |]. split; [congruence | exact Hts1].
    - exists hk1, l', ts'. split; [exact Hk1 |]. split; [congruence |].
      rewrite Et1.
      destruct (installed_lookup T l a w ts Hts) as (_ & Hother & _).
      now rewrite Hother. }
  destruct (installed_lookup T l b w1 ts1 Hts1) as (Hl2 & _).
  exists w2, (t1 ++ t2), (withState (applyAction b (state ts1)) ts1).
  split.
  { erewrite (bind_ok (T:=T)) by exact Erun1. now rewrite Erun2. }
  split; [now rewrite Et2 |].
  split; [subst ts1; now destruct a, b |]. split; [reflexivity |].
  now rewrite visited_app, Ev1, Ev2.
Qed.
End MutationFacts.

Section Counters.
Variable T : Type.
Implicit Types w : World T.
Implicit Types eqFn : Equality T.


Lemma Hook_rerender_counter eqFn h w :
  live w h ->
  exists w' t,
    Hook_rerender (@useQuery_rerender T) eqFn h w = (Ok tt, w', t) /\
    number w' = if stale eqFn (queryCalls w) w h
                then <[h := S (default 0%nat (number w !! h))]> (number w)
                else number w.
Proof.
  intros (hk & l & ts & Ehk & El & Ets).
  rewrite (@Hook_rerender_run T (@useQuery_rerender T) eqFn h w hk l ts Ehk El Ets).
  rewrite (stale_live T eqFn (queryCalls w) w h hk l ts Ehk El Ets).
  destruct (isChanged eqFn (oldState hk) (queryFn hk (state ts) (queryCalls w)));
    eexists _, _; split; reflexivity.
Qed.

Lemma forEach_counters eqFn l arr n :
  forall k w,
    subscriberArray l w = arr ->
    NoDup (take n (drop k arr)) ->
    (forall s, s ∈ take n (drop k arr) -> live w s) ->
    exists w' t,
      forEach_loop l (Hook_rerender (@useQuery_rerender T) eqFn) n k w = (Ok tt, w', t) /\
      forall x, number w' !! x
                = if decide (x ∈ changedFrom eqFn w (queryCalls w) (take n (drop k arr)))
                  then bumped (number w) x
                  else number w !! x.
Proof.
  induction n as [| n IH]; intros k w Harr Hnd Hall.
  - exists w, []. rewrite take_0. split; [reflexivity |].
    intros x. cbn [changedFrom]. now rewrite decide_False by apply not_elem_of_nil.
  - destruct (arr !! k) as [s |] eqn:Ek.
    + rewrite (drop_S _ _ _ Ek) in *. cbn [take] in *.
      apply NoDup_cons in Hnd as [Hnotin Hnd].
      assert (Hlive : live w s) by (apply Hall; left).
      destruct (@Hook_rerender_quiet T (@useQuery_rerender T) eqFn s w Hlive
                  (@useQuery_rerender_quiet T s))
        as (w1 & t1 & Erun & Et1 & Eh1 & Ec1 & _ & _).
      destruct (Hook_rerender_counter eqFn s w Hlive) as (w1' & t1' & Erun' & En1).
      rewrite Erun in Erun'. injection Erun' as <- <-.
      destruct (IH (S k) w1) as (w2 & t2 & Erun2 & En2).
      { rewrite <- Harr. now apply subscriberArray_tables. }
      { exact Hnd. }
      { intros s' Hs'.
        apply live_preserved with w; [now rewrite Et1 | | apply Hall; now right].
        intros hk Ehk. rewrite Eh1, list_lookup_alter.
        case_decide; subst; rewrite Ehk; simpl; eauto. }
      exists w2, (t1 ++ t2). split.
      * rewrite forEach_loop_S, Harr, Ek.
        erewrite (bind_ok (T:=T)) by exact Erun. now rewrite Erun2.
      * intros x. rewrite En2, Ec1. cbn [changedFrom].
        rewrite (changedFrom_ext T eqFn w w1 (take n (drop (S k) arr)) Et1).
        2:{ intros y Hy. rewrite Eh1. apply list_lookup_alter_ne.
            intros ->. contradiction. }
        set (rest := changedFrom eqFn w (S (queryCalls w)) (take n (drop (S k) arr))).
        assert (Hrest : s ∉ rest).
        { intros Hin. apply Hnotin. exact (changedFrom_elem_of T eqFn w _ s _ Hin). }
        destruct (decide (x = s)) as [-> | Hne].
        -- rewrite decide_False by exact Hrest. rewrite En1. unfold bumped.
           destruct (stale eqFn (queryCalls w) w s).
           ++ rewrite decide_True by (apply elem_of_app; left; left).
              now rewrite lookup_insert_eq.
           ++ now rewrite decide_False by (cbn [app]; exact Hrest).
        -- assert (Hnum : number w1 !! x = number w !! x).
           { rewrite En1. destruct (stale eqFn (queryCalls w) w s); [| reflexivity].
             now rewrite lookup_insert_ne. }
           unfold bumped. rewrite Hnum.
           destruct (decide (x ∈ rest)) as [Hin | Hout].
           ++ now rewrite decide_True by (apply elem_of_app; now right).
           ++ rewrite decide_False; [reflexivity |].
              rewrite elem_of_app. intros [Hx | Hx]; [| contradiction].
              destruct (stale eqFn (queryCalls w) w s); [| now apply elem_of_nil in Hx].
              apply list_elem_of_singleton in Hx. contradiction.
    + assert (Hdrop : drop k arr = []).
      { apply drop_ge. now apply lookup_ge_None. }
      assert (Hdrop' : drop (S k) arr = []).
      { apply drop_ge. apply lookup_ge_None in Ek. lia. }
      rewrite Hdrop in *. rewrite take_nil in *.
      destruct (IH (S k) w Harr) as (w2 & t2 & Erun2 & En2).
      { rewrite Hdrop', take_nil. constructor. }
      { rewrite Hdrop', take_nil. intros s Hs. now apply elem_of_nil in Hs. }
      rewrite Hdrop', take_nil in *.
      exists w2, t2. split; [| exact En2].
      now rewrite forEach_loop_S, Harr, Ek.
Qed.

(** X10: with the callback that [useQuery] installs and no hook
    subscribed twice, a mutation raises the render counter of a
    subscriber by one when its query result on the new state differs from
    its last result, and leaves every other counter as it was. *)
Theorem mutation_bumps_changed l a w ts :
  tables w !! l = Some ts ->
  NoDup (subscriber ts) ->
  (forall s, s ∈ subscriber ts -> live w s) ->
  exists w' t,
    TableStore_setStateAction (@useQuery_rerender T) l a w = (Ok tt, w', t) /\
    forall x,
      number w' !! x
      = if decide (x ∈ changedFrom (equalityFn ts) (installed l a w) (queryCalls w)
                         (subscriber ts))
        then Some (S (default 0%nat (number w !! x)))
        else number w !! x.
Proof.
  intros Hts Hnd Hall.
  destruct (installed_lookup T l a w ts Hts) as (_ & _ & _ & _ & Hnum & Harr).
  rewrite (TableStore_setStateAction_unfold T (@useQuery_rerender T) l a w ts Hts).
  unfold SubscriberCollection_rerender, Array_forEach.
  erewrite (bind_ok (T:=T)) by reflexivity. rewrite Harr.
  destruct (forEach_counters (equalityFn ts) l (subscriber ts)
              (length (subscriber ts)) 0%nat (installed l a w) Harr)
    as (w' & t & Erun & En).
  { now rewrite drop_0, firstn_all. }
  { rewrite drop_0, firstn_all. intros s Hs. apply (installed_live T), Hall, Hs. }
  rewrite drop_0, firstn_all, (installed_queryCalls T) in En.
  exists w', t. rewrite Erun. split; [reflexivity |].
  intros x. rewrite En. unfold bumped. now rewrite Hnum.
Qed.
End Counters.

Section QueryFacts.
Variable T : Type.
Implicit Types cmp : Comperator T.
Local Open Scope Z_scope.

Lemma Array_slice_sublist (arr : list T) (start end_ : Z) :
  Array_slice arr start end_ `sublist_of` arr.
Proof.
  unfold Array_slice. etransitivity; [apply sublist_take | apply sublist_drop].
Qed.

Lemma filterAndSort_elem_of (where_ : option (T -> bool)) (order : option (Comperator T))
    (state : list T) (x : T) :
  x ∈ filterAndSort where_ order state ->
  x ∈ state /\ (forall p, where_ = Some p -> p x = true).
Proof.
  unfold filterAndSort. intros Hin.
  assert (Hbase : x ∈ match where_ with
                      | Some p => List.filter (fun v => p v) state
                      | None => state
                      end).
  { destruct where_ as [p |], order as [cmp |]; try exact Hin.
    - eapply elem_of_Permutation_proper; [symmetry; apply Array_sort_perm | exact Hin].
    - eapply elem_of_Permutation_proper; [symmetry; apply Array_sort_perm | exact Hin]. }
  destruct where_ as [p |].
  - apply list_elem_of_In, filter_In in Hbase as [Hx Hp].
    split; [now apply list_elem_of_In |]. now intros ? [= <-].
  - split; [exact Hbase | discriminate].
Qed.

Lemma filterAndSort_length (where_ : option (T -> bool)) (order : option (Comperator T))
    (state : list T) :
  (length (filterAndSort where_ order state) <= length state)%nat.
Proof.
  unfold filterAndSort.
  destruct where_ as [p |], order as [cmp |];
    rewrite ?(Permutation_length (Array_sort_perm _ _)); try apply filter_length_le; lia.
Qed.

Lemma query_result_from_state_elem (where_ : option (T -> bool))
    (order : option (Comperator T)) (offset limit : option Z) (state : list T) x :
  x ∈ createDefaultQueryFunction where_ order offset limit state ->
  x ∈ state /\ (forall p, where_ = Some p -> p x = true).
Proof.
  intros Hx. apply (filterAndSort_elem_of where_ order state).
  eapply elem_of_sublist; [exact Hx |].
  unfold createDefaultQueryFunction.
  destruct (needsSlice _ _ _); [apply Array_slice_sublist | reflexivity].
Qed.

(** X14: whatever [where], [offset] and [limit] are (also negative
    ones), and for an order that is absent or a consistent comparator,
    the result of the query function is a subsequence of the filtered
    and sorted sequence: each of its elements is an element of the state
    that satisfies [where], and it is not longer than the state. *)
Theorem query_result_from_state (where_ : option (T -> bool))
    (order : option (Comperator T)) (offset limit : option Z) (state : list T) :
  consistentOrder order ->
  createDefaultQueryFunction where_ order offset limit state
    `sublist_of` filterAndSort where_ order state /\
  (forall x, x ∈ createDefaultQueryFunction where_ order offset limit state ->
     x ∈ state /\ (forall p, where_ = Some p -> p x = true)) /\
  (length (createDefaultQueryFunction where_ order offset limit state)
   <= length state)%nat.
Proof.
  intros _.
  assert (Hsub : createDefaultQueryFunction where_ order offset limit state
                   `sublist_of` filterAndSort where_ order state).
  { unfold createDefaultQueryFunction.
    destruct (needsSlice _ _ _); [apply Array_slice_sublist | reflexivity]. }
  split; [exact Hsub |]. split.
  - intros x Hx. apply (filterAndSort_elem_of where_ order state).
    eapply elem_of_sublist; [exact Hx | exact Hsub].
  - etransitivity; [apply sublist_length, Hsub | apply filterAndSort_length].
Qed.

(** The query function for an offset and a limit that are not negative. *)
Lemma createDefaultQueryFunction_nonneg (where_ : option (T -> bool))
    (order : option (Comperator T)) (offset limit : option Z) (state : list T) :
  nonNegative offset -> nonNegative limit ->
  let staged := filterAndSort where_ order state in
  createDefaultQueryFunction where_ order offset limit state
  = take (Z.to_nat (default (Z.of_nat (length staged)) limit))
         (drop (Z.to_nat (default 0 offset)) staged).
Proof.
  intros Hoff Hlim staged. unfold createDefaultQueryFunction. fold staged.
  set (off := default 0 offset). set (len := Z.of_nat (length staged)).
  assert (Hoff0 : 0 <= off) by (subst off; destruct offset; simpl in *; lia).
  assert (Hlim0 : 0 <= default len limit)
    by (subst len; destruct limit; simpl in *; lia).
  unfold needsSlice. fold len.
  destruct (Z.gtb_spec off 0) as [Hpos | Hzero];
    [| destruct (Z.ltb_spec (default len limit) len) as [Hless | Hall] ]; cbn [orb].
  - now apply Array_slice_offset_limit.
  - now apply Array_slice_offset_limit.
  - assert (off = 0) as -> by lia. cbn. rewrite drop_0.
    rewrite take_ge; [reflexivity | lia].
Qed.

(** X15: edge cases of offset and limit.  Without a limit, an offset
    that is not positive is ignored; with offset 0 a negative limit drops
    that many elements from the end; an offset at or beyond the length
    gives the empty result; and for an offset and a limit that are not
    negative the result has min(limit, length - offset) elements. *)
Theorem query_offset_limit_edges (where_ : option (T -> bool))
    (order : option (Comperator T)) (offset limit : option Z) (state : list T) :
  let staged := filterAndSort where_ order state in
  let len := Z.of_nat (length staged) in
  let result := createDefaultQueryFunction where_ order offset limit state in
  (default 0 offset <= 0 -> limit = None -> result = staged) /\
  (default 0 offset = 0 -> forall lim, limit = Some lim -> lim < 0 ->
     result = take (Z.to_nat (len + lim)) staged) /\
  (0 <= default 0 offset -> len <= default 0 offset -> result = []) /\
  (nonNegative offset -> nonNegative limit ->
   length result
   = Z.to_nat (Z.min (default len limit) (Z.max (len - default 0 offset) 0))).
Proof.
  intros staged len result. subst result. unfold createDefaultQueryFunction.
  fold staged. fold len. unfold needsSlice. fold len.
  split; [| split; [| split]].
  - intros Hoff ->. cbn [default].
    destruct (Z.gtb_spec (default 0 offset) 0); [lia |].
    destruct (Z.ltb_spec len len); [lia | reflexivity].
  - intros Hoff lim -> Hlim. change (default len (Some lim)) with lim. rewrite Hoff.
    destruct (Z.ltb_spec lim len); [| lia].
    replace (0 >? 0) with false by reflexivity. cbn [orb].
    unfold Array_slice, relativeIndex. fold len.
    replace (0 <? 0) with false by reflexivity. rewrite Z.add_0_l.
    destruct (Z.ltb_spec lim 0); [| lia].
    rewrite (Z.min_l 0) by lia. rewrite Z.sub_0_r.
    change (Z.to_nat 0) with 0%nat. rewrite drop_0.
    f_equal. lia.
  - intros Hoff Hlen.
    destruct ((default 0 offset >? 0) || (default len limit <? len)) eqn:E.
    + unfold Array_slice, relativeIndex. fold len.
      destruct (Z.ltb_spec (default 0 offset) 0); [lia |].
      rewrite (Z.min_r (default 0 offset)) by lia.
      rewrite drop_ge by lia. apply take_nil.
    + assert (length staged = 0%nat) as Hz; [| now destruct staged].
      apply orb_false_iff in E as [Hgt _].
      destruct (Z.gtb_spec (default 0 offset) 0); [discriminate | lia].
  - intros Hoff Hlim.
    pose proof (createDefaultQueryFunction_nonneg where_ order offset limit state
                  Hoff Hlim) as E.
    unfold createDefaultQueryFunction, needsSlice in E. fold staged in E. fold len in E.
    rewrite E. rewrite length_take, length_drop.
    assert (0 <= default 0 offset) by (destruct offset; simpl in *; lia).
    assert (0 <= default len limit) by (subst len; destruct limit; simpl in *; lia).
    lia.
Qed.

(** X16: a negative offset [off] within the length counts from the
    end: with a limit below [-off] the result is that many elements from
    position [length + off]; with a limit from [-off] up to the length it
    is empty; and with a limit of at least the length the offset is
    ignored and everything is returned. *)
Theorem query_negative_offset (where_ : option (T -> bool))
    (order : option (Comperator T)) (off lim : Z) (state : list T) :
  let staged := filterAndSort where_ order state in
  let len := Z.of_nat (length staged) in
  let result := createDefaultQueryFunction where_ order (Some off) (Some lim) state in
  off < 0 -> - len <= off ->
  (len <= lim -> result = staged) /\
  (0 <= lim -> lim < - off ->
   result = take (Z.to_nat lim) (drop (Z.to_nat (len + off)) staged)) /\
  (- off <= lim -> lim < len -> result = []).
Proof.
  intros staged len result Hneg Hin. subst result.
  unfold createDefaultQueryFunction. fold staged. fold len.
  change (default 0 (Some off)) with off. change (default len (Some lim)) with lim.
  unfold needsSlice. fold len.
  destruct (Z.gtb_spec off 0); [lia |]. cbn [orb].
  split; [| split].
  - intros Hall. now destruct (Z.ltb_spec lim len); [lia |].
  - intros Hlim0 Hlim. destruct (Z.ltb_spec lim len); [| lia].
    unfold Array_slice, relativeIndex. fold len.
    destruct (Z.ltb_spec off 0); [| lia].
    destruct (Z.ltb_spec (off + lim) 0); [| lia].
    rewrite !Z.max_l by lia. f_equal. lia.
  - intros Hlim Hlt. destruct (Z.ltb_spec lim len); [| lia].
    unfold Array_slice, relativeIndex. fold len.
    destruct (Z.ltb_spec off 0); [| lia].
    destruct (Z.ltb_spec (off + lim) 0); [lia |].
    rewrite (Z.max_l (len + off)) by lia. rewrite Z.min_l by lia.
    rewrite Z.max_r by lia. apply take_0.
Qed.

Lemma useSingle_result_take (arr : list T) (n : nat) :
  useSingle_result (take 1 (drop n arr)) = arr !! n.
Proof.
  rewrite <- (Nat.add_0_r n) at 2. rewrite <- lookup_drop.
  now destruct (drop n arr).
Qed.

Lemma find_head_filter (p : T -> bool) (arr : list T) :
  List.find p arr = List.filter p arr !! 0%nat.
Proof.
  induction arr as [| x arr IH]; [reflexivity |].
  cbn [List.find List.filter]. now destruct (p x).
Qed.

Lemma useSingle_result_staged (where_ : T -> bool) (order : option (Comperator T))
    (offset : option Z) (state : list T) :
  nonNegative offset ->
  useSingle_result (useSingle_query where_ order offset state)
  = filterAndSort (Some where_) order state !! Z.to_nat (default 0 offset).
Proof.
  intros Hoff. unfold useSingle_query.
  rewrite (createDefaultQueryFunction_nonneg (Some where_) order offset (Some 1)
             state Hoff ltac:(simpl; lia)).
  apply useSingle_result_take.
Qed.

(** X17: [useSingle] with an order that is absent or a consistent
    comparator and an offset that is not negative returns the element at
    that position of the filtered and sorted sequence, or [undefined]
    when there is none; without order and with offset 0 this is the
    first element of the state that satisfies [where]. *)
Theorem useSingle_index (where_ : T -> bool) (order : option (Comperator T))
    (offset : option Z) (state : list T) :
  consistentOrder order ->
  nonNegative offset ->
  useSingle_result (useSingle_query where_ order offset state)
  = filterAndSort (Some where_) order state !! Z.to_nat (default 0 offset) /\
  (order = None -> default 0 offset = 0 ->
   useSingle_result (useSingle_query where_ order offset state)
   = List.find where_ state).
Proof.
  intros _ Hoff.
  pose proof (useSingle_result_staged where_ order offset state Hoff) as E.
  split; [exact E |].
  intros -> Hz. rewrite E, Hz. cbn [filterAndSort].
  symmetry. apply (find_head_filter (fun v => where_ v)).
Qed.

(** X18: [useSingle] with a consistent order and offset 0 returns an
    element of the state that satisfies [where] and that the order puts
    no later than any other such element, and [undefined] exactly when no
    element satisfies [where]. *)
Theorem useSingle_minimum (where_ : T -> bool) (cmp : Comperator T)
    (offset : option Z) (state : list T) :
  ConsistentComparator cmp -> default 0 offset = 0 ->
  match useSingle_result (useSingle_query where_ (Some cmp) offset state) with
  | Some m =>
      m ∈ state /\ where_ m = true /\
      forall y, y ∈ state -> where_ y = true -> cmp m y <= 0
  | None => forall y, y ∈ state -> where_ y = false
  end.
Proof.
  intros Hc Hz.
  assert (Hoff : nonNegative offset) by (destruct offset; simpl in *; lia).
  rewrite (useSingle_result_staged where_ (Some cmp) offset state Hoff).
  rewrite Hz. cbn [filterAndSort Z.to_nat].
  set (base := List.filter (fun v => where_ v) state).
  pose proof (Array_sort_perm (fun x y => cmp x y) base) as Hperm.
  pose proof (Array_sort_sorted Hc base) as Hsorted.
  assert (Hbase : forall y, y ∈ base <-> y ∈ state /\ where_ y = true).
  { intros y. subst base. rewrite !list_elem_of_In. apply filter_In. }
  destruct (Array_sort (fun x y => cmp x y) base) as [| m rest] eqn:Es; cbn.
  - intros y Hy. destruct (where_ y) eqn:Hw; [| reflexivity].
    assert (Hin : y ∈ base) by now apply Hbase.
    rewrite <- Hperm in Hin. now apply elem_of_nil in Hin.
  - assert (Hm : m ∈ base) by (rewrite <- Hperm; left).
    apply Hbase in Hm as [Hm Hw]. split; [exact Hm |]. split; [exact Hw |].
    intros y Hy Hwy.
    assert (Hin : y ∈ m :: rest) by (rewrite Hperm; now apply Hbase).
    inversion Hsorted as [| ? ? _ Hall]; subst.
    apply elem_of_cons in Hin as [-> | Hin].
    + rewrite (cmp_refl Hc). lia.
    + rewrite Forall_forall in Hall. now apply Hall.
Qed.

Lemma filter_ext_pointwise (f g : T -> bool) (arr : list T) :
  (forall x, f x = g x) -> List.filter f arr = List.filter g arr.
Proof.
  intros Hfg. induction arr as [| x arr IH]; [reflexivity |].
  cbn [List.filter]. now rewrite Hfg, IH.
Qed.

Lemma createDefaultQueryFunction_ext (p p' : T -> bool) order offset limit state :
  (forall x, p x = p' x) ->
  createDefaultQueryFunction (Some p) order offset limit state
  = createDefaultQueryFunction (Some p') order offset limit state.
Proof.
  intros Hp. unfold createDefaultQueryFunction, filterAndSort.
  now rewrite (filter_ext_pointwise (fun v => p v) (fun v => p' v) state Hp).
Qed.


(** X19: the query function of [useMany] never fails to be built; it is
    the default query function for the conjunction of the predicate of
    the relation and the predicate of the call (for the one that is
    given, when one is absent), so every element of its result satisfies
    both. *)
Theorem useMany_query_spec (relationWhere where_ : option (T -> bool))
    (order : option (Comperator T)) (offset limit : option Z) :
  exists q,
    useMany_query relationWhere where_ order offset limit = Ok q /\
    (forall state,
       q state = createDefaultQueryFunction (bothWhere relationWhere where_)
                   order offset limit state) /\
    (forall state x, x ∈ q state ->
       (forall p, relationWhere = Some p -> p x = true) /\
       (forall p, where_ = Some p -> p x = true)).
Proof.
  assert (Hq : exists q,
             useMany_query relationWhere where_ order offset limit = Ok q /\
             forall state,
               q state = createDefaultQueryFunction (bothWhere relationWhere where_)
                           order offset limit state).
  { unfold useMany_query.
    destruct relationWhere as [p1 |], where_ as [p2 |]; cbn;
      eexists; (split; [reflexivity |]); intros state; try reflexivity.
    apply createDefaultQueryFunction_ext. intros x.
    unfold runPure. now rewrite andPredicate_pure. }
  destruct Hq as (q & Eq & Hq). exists q. split; [exact Eq |]. split; [exact Hq |].
  intros state x Hx. rewrite Hq in Hx.
  destruct (query_result_from_state_elem (bothWhere relationWhere where_) order
              offset limit state x Hx) as [_ Hp].
  destruct relationWhere as [p1 |], where_ as [p2 |]; cbn in Hp.
  - specialize (Hp _ eq_refl). apply andb_true_iff in Hp as [H1 H2].
    split; now intros ? [= <-].
  - specialize (Hp _ eq_refl). split; [now intros ? [= <-] | discriminate].
  - specialize (Hp _ eq_refl). split; [discriminate | now intros ? [= <-]].
  - split; discriminate.
Qed.
End QueryFacts.

Section PolicyFacts.
Context {T : Type} `{JsRecord T}.
Variable triggerRerender : nat -> M T unit.
Implicit Types w : World T.

Lemma strictEquals_true (x y : JsVal) :
  strictEquals x y = true <-> x = y /\ x <> VNaN.
Proof.
  destruct x, y; cbn; try (split; [discriminate | intros [? ?]; congruence]);
    try (split; [intros _; split; [reflexivity | discriminate] | reflexivity]).
  - rewrite Bool.eqb_true_iff. split; [intros ->; split; [reflexivity | discriminate] |].
    now intros [[= ->] _].
  - rewrite Z.eqb_eq. split; [intros ->; split; [reflexivity | discriminate] |].
    now intros [[= ->] _].
  - rewrite String.eqb_eq. split; [intros ->; split; [reflexivity | discriminate] |].
    now intros [[= ->] _].
  - rewrite Nat.eqb_eq. split; [intros ->; split; [reflexivity | discriminate] |].
    now intros [[= ->] _].
  - rewrite Nat.eqb_eq. split; [intros ->; split; [reflexivity | discriminate] |].
    now intros [[= ->] _].
Qed.

Lemma strictEquals_sym (x y : JsVal) : strictEquals x y = strictEquals y x.
Proof.
  destruct (strictEquals x y) eqn:E1, (strictEquals y x) eqn:E2; try reflexivity.
  - apply strictEquals_true in E1 as [-> Hn]. 
    assert (strictEquals y y = true) by now apply strictEquals_true. congruence.
  - apply strictEquals_true in E2 as [-> Hn].
    assert (strictEquals x x = true) by now apply strictEquals_true. congruence.
Qed.

Lemma strictEquals_diag_false (v : JsVal) : strictEquals v v = false -> v = VNaN.
Proof.
  destruct v; cbn; try discriminate; try reflexivity.
  - now destruct b.
  - now rewrite Z.eqb_refl.
  - now rewrite String.eqb_refl.
  - now rewrite Nat.eqb_refl.
  - now rewrite Nat.eqb_refl.
Qed.

(** X20: the policy made from a property name is symmetric and
    transitive, and it holds between a record and itself exactly when the
    value of the property is not [NaN]; so a result compared with itself
    counts as changed exactly when it holds a record whose property is
    [NaN]. *)
Theorem key_policy_equivalence (key : string) :
  exists eqFn,
    createComparator (T:=T) (ArgValue (VString key)) = Ok eqFn /\
    (forall a b, eqFn a b = eqFn b a) /\
    (forall a b c, eqFn a b = true -> eqFn b c = true -> eqFn a c = true) /\
    (forall a, eqFn a a = true <-> getProperty a key <> VNaN) /\
    (forall r, Changed eqFn (Some r) r
               <-> exists x, x ∈ r /\ getProperty x key = VNaN).
Proof.
  eexists. split; [reflexivity |]. cbn beta.
  assert (Hrefl : forall a : T,
             strictEquals (getProperty a key) (getProperty a key) = true
             <-> getProperty a key <> VNaN).
  { intros a. rewrite strictEquals_true. tauto. }
  split; [intros a b; apply strictEquals_sym |].
  split.
  { intros a b c Hab Hbc. apply strictEquals_true in Hab as [Eab Hn].
    apply strictEquals_true in Hbc as [Ebc _]. apply strictEquals_true.
    split; congruence. }
  split; [exact Hrefl |].
  intros r. cbn [Changed]. split.
  - intros [Hlen | (i & x & y & Hx & Hy & Hf)]; [congruence |].
    assert (y = x) as -> by congruence.
    exists x. split; [now apply list_elem_of_lookup_2 with i |].
    now apply strictEquals_diag_false.
  - intros (x & Hx & Hnan). right.
    apply list_elem_of_lookup_1 in Hx as [i Hi].
    exists i, x, x. split; [exact Hi |]. split; [exact Hi |].
    rewrite Hnan. reflexivity.
Qed.

(** X22: a table starts empty: the first render of [useQuery] on the
    handle that [createTable] just returned gives the query function
    applied to the empty array, on a hook bound to the new store, which
    has no subscriber yet. *)
Theorem fresh_table_first_render arg eqFn (q : QueryFunction T) w :
  createComparator arg = Ok eqFn ->
  exists w',
    (res ← createTable triggerRerender arg; useQuery_firstRender (fst (fst res)) q) w
    = (Ok (length (hooks w), q [] (queryCalls w)), w', []) /\
    hooks w' !! length (hooks w)
    = Some {| table := Some (length (tables w)); queryFn := q;
              oldState := Some (q [] (queryCalls w)) |} /\
    subscriberArray (length (tables w)) w' = [].
Proof.
  intros Hcmp.
  set (w1 := created eqFn w).
  set (hk := {| table := Some (length (tables w)); queryFn := q; oldState := None |}).
  set (w2 := setHooks (fun hs => hs ++ [hk]) w1).
  assert (Hnew : useQuery_newHook {| reference := symbols w |} q w1
                 = (Ok (length (hooks w)), w2, [])).
  { unfold useQuery_newHook, TableRegistry_get.
    erewrite (bind_ok (T:=T)).
    2:{ erewrite (bind_ok (T:=T)) by reflexivity.
        subst w1. cbn [registry created reference]. rewrite lookup_insert_eq.
        reflexivity. }
    reflexivity. }
  assert (Hh2 : hooks w2 !! length (hooks w) = Some hk).
  { subst w2 w1. cbn [hooks setHooks created]. now apply list_lookup_middle. }
  assert (Hts2 : tables w2 !! length (tables w)
                 = Some {| store_reference := symbols w; equalityFn := eqFn;
                           subscriber := []; state := [] |}).
  { subst w2 w1. cbn [tables setHooks created]. now apply list_lookup_middle. }
  eexists. split.
  { erewrite (bind_ok (T:=T))
      by exact (@createTable_run T _ triggerRerender arg eqFn w Hcmp).
    cbn [fst]. unfold useQuery_firstRender. fold w1.
    erewrite (bind_ok (T:=T)) by exact Hnew.
    erewrite (bind_ok (T:=T))
      by exact (Hook_executeQuery_run T _ q w2 hk _ _ Hh2 eq_refl Hts2).
    reflexivity. }
  split.
  - cbn [hooks setHooks setQueryCalls]. rewrite list_lookup_alter_eq, Hh2. reflexivity.
  - unfold subscriberArray. cbn [tables setHooks setQueryCalls]. now rewrite Hts2.
Qed.
End PolicyFacts.

Section ExceptionFacts.
Variable T : Type.
Variable triggerRerender : nat -> M T unit.
Implicit Types w : World T.
Implicit Types eqFn : Equality T.

(** X21: when the callback of a subscriber throws, the mutation ends
    with that exception: the new state stays installed, the subscribers
    stored before were entered, those stored after are not, and the last
    result of the hook whose callback threw is not replaced. *)
Theorem callback_exception_stops_fanout l a w ts pre h post hk e :
  tables w !! l = Some ts ->
  subscriber ts = pre ++ h :: post ->
  h ∉ pre ->
  hooks w !! h = Some hk -> table hk = Some l ->
  Changed (equalityFn ts) (oldState hk)
    (queryFn hk (applyAction a (state ts)) (queryCalls w + length pre)) ->
  (forall w0, triggerRerender h w0 = (Throw e, w0, [])) ->
  (forall s, s ∈ pre -> live w s /\ quiet (triggerRerender s)) ->
  exists w' t,
    TableStore_setStateAction triggerRerender l a w = (Throw e, w', t) /\
    visited t = pre ++ [h] /\
    tables w' = tables (installed l a w) /\
    hooks w' !! h = Some hk.
Proof.
  intros Hts Hsub Hnotin Hh Hl Hchanged Hthrow Hall.
  destruct (installed_lookup T l a w ts Hts) as (Hts0 & _ & Hhooks0 & _ & _ & Harr0).
  set (w0 := installed l a w) in *.
  rewrite (TableStore_setStateAction_unfold T triggerRerender l a w ts Hts). fold w0.
  rewrite Hsub in Harr0.
  destruct (@forEach_stable T triggerRerender (equalityFn ts) l (pre ++ h :: post)
              (length pre) 0%nat w0 Harr0)
    as (w1 & t1 & Erun1 & Et1 & Ec1 & Eo1 & _ & Ev1 & _).
  { rewrite drop_0, take_app_length. intros s Hs. destruct (Hall s Hs) as [Hlive Hq].
    split; [now apply (installed_live T) | assumption]. }
  rewrite drop_0, take_app_length in *.
  assert (Ec0 : queryCalls w0 = queryCalls w) by apply installed_queryCalls.
  assert (Hh1 : hooks w1 !! h = Some hk).
  { rewrite Eo1 by assumption. now rewrite Hhooks0. }
  assert (Hts1 : tables w1 !! l = Some (withState (applyAction a (state ts)) ts))
    by now rewrite Et1.
  pose proof (@Hook_rerender_run T triggerRerender (equalityFn ts) h w1 hk l _
                Hh1 Hl Hts1) as Erun2.
  cbn [state withState] in Erun2. rewrite Ec1, Ec0 in Erun2.
  apply (isChanged_Changed (T:=T)) in Hchanged. rewrite Hchanged, Hthrow in Erun2.
  assert (Erun3 : forEach_loop l (Hook_rerender triggerRerender (equalityFn ts))
                    (S (length post)) (0 + length pre) w1
                  = (Throw e, setQueryCalls S w1,
                     (EvRerender h (equalityFn ts)
                      :: map (evEquality (T:=T))
                           (comparedPairs (equalityFn ts) (oldState hk)
                              (queryFn hk (applyAction a (state ts))
                                 (queryCalls w + length pre))))
                     ++ [EvTrigger h])).
  { rewrite forEach_loop_S, (@subscriberArray_tables T l w0 w1 Et1), Harr0.
    rewrite Nat.add_0_l, list_lookup_middle by reflexivity.
    now erewrite (bind_throw (T:=T)) by exact Erun2. }
  eexists _, _. split; [| split; [| split]].
  - unfold SubscriberCollection_rerender, Array_forEach.
    erewrite (bind_ok (T:=T)) by reflexivity.
    rewrite Harr0, length_app. cbn [length].
    rewrite (@forEach_loop_app T l (Hook_rerender triggerRerender (equalityFn ts))
               (length pre) (S (length post)) 0%nat w0 w1 t1 _ _ _ Erun1 Erun3).
    reflexivity.
  - cbn [app]. rewrite visited_app, Ev1. cbn [app].
    now rewrite visited_notification.
  - exact Et1.
  - exact Hh1.
Qed.
End ExceptionFacts.

Local Open Scope Z_scope.

(** ** The sample worlds, again *)

Lemma emptyWorld_fresh : registryFresh emptyWorld.
Proof. intros k l. cbn. rewrite lookup_empty. discriminate. Defined.

Lemma demoWorld_subscribers_ok (subs : list nat) (s : nat) :
  (s < 3)%nat ->
  live (demoWorld subs) s /\ quiet (@useQuery_rerender JsObject s).
Proof.
  intros Hlt. split; [now apply demoWorld_live | apply useQuery_rerender_quiet].
Defined.

Lemma below_three (s : nat) : s ∈ [0; 1; 2]%nat -> (s < 3)%nat.
Proof.
  intros Hs.
  apply elem_of_cons in Hs as [-> | Hs]; [lia |].
  apply elem_of_cons in Hs as [-> | Hs]; [lia |].
  apply elem_of_cons in Hs as [-> | Hs]; [lia |].
  now apply elem_of_nil in Hs.
Defined.

Lemma NoDup_three : NoDup [0; 1; 2]%nat.
Proof.
  repeat (apply NoDup_cons_2;
          [intros Hin;
           repeat (apply elem_of_cons in Hin as [Hin | Hin]; [discriminate |]);
           now apply elem_of_nil in Hin |]).
  apply NoDup_nil_2.
Defined.

Lemma createTable_fresh_handle_witness :
  exists tb setState cleanup w',
    createTable (@useQuery_rerender JsObject) (ArgValue VUndefined) emptyWorld
    = (Ok (tb, setState, cleanup), w', []) /\
    registry emptyWorld !! reference tb = None /\
    registryFresh w'.
Proof.
  destruct (@createTable_fresh_handle JsObject _ (@useQuery_rerender JsObject)
              (ArgValue VUndefined) (fun a b => sameReference a b) emptyWorld
              emptyWorld_fresh eq_refl)
    as (tb & setState & cleanup & w' & E & Hnone & _ & _ & _ & Hf & _).
  exists tb, setState, cleanup, w'. auto.
Defined.

Lemma unknown_handle_TypeError_witness :
  exists wh,
    useQuery_firstRender {| reference := 7 |}
      (plainQuery (fun arr : list JsObject => arr)) (demoWorld [])
    = (Throw TypeError, wh, []).
Proof.
  destruct (@unknown_handle_TypeError JsObject (@useQuery_rerender JsObject)
              {| reference := 7 |} (plainQuery (fun arr => arr)) (demoWorld []) eq_refl)
    as (h & wh & _ & _ & _ & E & _).
  exists wh. exact E.
Defined.

Lemma Hook_executeQuery_spec_witness :
  exists w',
    Hook_executeQuery 0 (plainQuery (fun arr : list JsObject => take 1 arr))
      (demoWorld [])
    = (Ok [mkRecord 0 3 true], w', []).
Proof.
  destruct (Hook_executeQuery_spec JsObject 0%nat (plainQuery (fun arr => take 1 arr))
              (demoWorld []) (boundHook None) 0%nat (demoStore [])
              eq_refl eq_refl eq_refl)
    as (w' & E & _).
  exists w'. exact E.
Defined.

Lemma executeQuery_then_notify_witness :
  exists w' t,
    (Hook_executeQuery 0 (plainQuery (fun arr : list JsObject => arr));;
     Hook_rerender (@useQuery_rerender JsObject) (fun a b => sameReference a b) 0)
      (demoWorld [0%nat])
    = (Ok tt, w', t) /\
    triggered t = [].
Proof.
  destruct (executeQuery_then_notify JsObject (@useQuery_rerender JsObject)
              (fun a b => sameReference a b) 0%nat (plainQuery (fun arr => arr))
              (demoWorld [0%nat]) (boundHook None) 0%nat (demoStore [0%nat])
              eq_refl eq_refl eq_refl (fun _ _ _ => eq_refl)
              JsObject_sameReference_refl)
    as (w' & t & E & Htr & _).
  exists w', t. auto.
Defined.

Lemma subscribe_unsubscribe_roundtrip_witness :
  (Hook_subscribe 0;; Hook_unsubscribe 0) (demoWorld [1; 2]%nat)
  = (Ok tt, demoWorld [1; 2]%nat, []).
Proof.
  destruct (subscribe_unsubscribe_roundtrip JsObject 0%nat (demoWorld [1; 2]%nat)
              (boundHook None) 0%nat (demoStore [1; 2]%nat)
              eq_refl eq_refl eq_refl)
    as [Hback _].
  apply Hback. cbn.
  intros Hin.
  apply elem_of_cons in Hin as [Hin | Hin]; [discriminate |].
  apply elem_of_cons in Hin as [Hin | Hin]; [discriminate |].
  now apply elem_of_nil in Hin.
Defined.

Lemma subscriber_NoDup_invariant_witness :
  NoDup (SubscriberCollection_unsubscribe 1 [0; 1; 2]%nat) /\
  1%nat ∉ SubscriberCollection_unsubscribe 1 [0; 1; 2]%nat.
Proof.
  destruct (subscriber_NoDup_invariant 1%nat [0; 1; 2]%nat NoDup_three)
    as (_ & Hnd & Hout & _).
  auto.
Defined.

Lemma mutation_triggers_changed_witness :
  exists w' t,
    TableStore_setStateAction (@useQuery_rerender JsObject) 0
      (NewState sampleRecords) (demoWorld [0; 1; 2]%nat)
    = (Ok tt, w', t) /\
    triggered t = [0; 2]%nat.
Proof.
  destruct (mutation_triggers_changed JsObject (@useQuery_rerender JsObject)
              0%nat (NewState sampleRecords) (demoWorld [0; 1; 2]%nat)
              (demoStore [0; 1; 2]%nat) eq_refl NoDup_three
              (fun s Hs => demoWorld_subscribers_ok [0; 1; 2]%nat s (below_three s Hs)))
    as (w' & t & E & Htr).
  exists w', t. split; [exact E |]. rewrite Htr. reflexivity.
Defined.

Lemma mutation_bumps_changed_witness :
  exists w' t,
    TableStore_setStateAction (@useQuery_rerender JsObject) 0
      (NewState sampleRecords) (demoWorld [0; 1; 2]%nat)
    = (Ok tt, w', t) /\
    number w' !! 0%nat = Some 1%nat /\
    number w' !! 1%nat = None.
Proof.
  destruct (mutation_bumps_changed JsObject
              0%nat (NewState sampleRecords) (demoWorld [0; 1; 2]%nat)
              (demoStore [0; 1; 2]%nat) eq_refl NoDup_three
              (fun s Hs => @demoWorld_live [0; 1; 2]%nat s (below_three s Hs)))
    as (w' & t & E & Hn).
  exists w', t. split; [exact E |].
  split; rewrite Hn; reflexivity.
Defined.

Lemma mutation_frame_witness :
  exists w' t,
    TableStore_setStateAction (@useQuery_rerender JsObject) 0
      (NewState []) (demoWorld [0; 1; 2]%nat)
    = (Ok tt, w', t) /\
    length (hooks w') = 3%nat.
Proof.
  destruct (mutation_frame JsObject (@useQuery_rerender JsObject)
              0%nat (NewState []) (demoWorld [0; 1; 2]%nat)
              (demoStore [0; 1; 2]%nat) eq_refl
              (fun s Hs => demoWorld_subscribers_ok [0; 1; 2]%nat s (below_three s Hs)))
    as (w' & t & E & _ & _ & _ & _ & _ & _ & Hlen).
  exists w', t. auto.
Defined.

Lemma mutation_then_query_witness :
  exists w' t,
    (TableStore_setStateAction (@useQuery_rerender JsObject) 0
       (Updater (fun old => drop 3 old));;
     Hook_executeQuery 1 (plainQuery (fun arr => arr))) (demoWorld [0; 1; 2]%nat)
    = (Ok [mkRecord 3 2 true], w', t).
Proof.
  destruct (mutation_then_query JsObject (@useQuery_rerender JsObject)
              0%nat (Updater (fun old => drop 3 old)) (demoWorld [0; 1; 2]%nat)
              (demoStore [0; 1; 2]%nat) 1%nat (boundHook (Some sampleRecords))
              (plainQuery (fun arr => arr)) eq_refl
              (fun s Hs => demoWorld_subscribers_ok [0; 1; 2]%nat s (below_three s Hs))
              eq_refl eq_refl)
    as (w' & t & E & _).
  exists w', t. exact E.
Defined.

(** The updaters [old => old.slice(1)] and then [old => old.slice(2)]
    leave the last of the four records. *)
Lemma mutations_compose_witness :
  exists w' t,
    (TableStore_setStateAction (@useQuery_rerender JsObject) 0
       (Updater (fun old => drop 1 old));;
     TableStore_setStateAction (@useQuery_rerender JsObject) 0
       (Updater (fun old => drop 2 old))) (demoWorld [0; 1; 2]%nat)
    = (Ok tt, w', t) /\
    @state JsObject <$> tables w' !! 0%nat = Some [mkRecord 3 2 true] /\
    visited t = [0; 1; 2; 0; 1; 2]%nat.
Proof.
  destruct (mutations_compose JsObject (@useQuery_rerender JsObject)
              0%nat (Updater (fun old => drop 1 old)) (Updater (fun old => drop 2 old))
              (demoWorld [0; 1; 2]%nat) (demoStore [0; 1; 2]%nat) eq_refl
              (fun s Hs => demoWorld_subscribers_ok [0; 1; 2]%nat s (below_three s Hs)))
    as (w' & t & ts' & E & Ets & Est & _ & Hv).
  exists w', t. split; [exact E |]. split; [| exact Hv].
  rewrite Ets. cbn [fmap option_fmap option_map]. now rewrite Est.
Defined.

Lemma query_result_from_state_witness :
  consistentOrder (Some (fun a b : Z => a - b)) /\
  createDefaultQueryFunction (Some (fun z => 0 <? z)) (Some (fun a b => a - b))
    (Some (-2)) (Some 1) [3; -1; 1; 2]
  = [2] /\
  createDefaultQueryFunction (Some (fun z => 0 <? z)) (Some (fun a b => a - b))
    (Some (-2)) (Some 1) [3; -1; 1; 2]
    `sublist_of` [1; 2; 3].
Proof.
  split; [exact Zsub_consistent |]. split; [reflexivity |].
  destruct (query_result_from_state Z (Some (fun z => 0 <? z))
              (Some (fun a b => a - b)) (Some (-2)) (Some 1) [3; -1; 1; 2]
              Zsub_consistent)
    as (Hsub & _).
  exact Hsub.
Defined.

Lemma query_negative_offset_witness :
  createDefaultQueryFunction None None (Some (-2)) (Some 1) [1; 2; 3; 4] = [3].
Proof.
  destruct (query_negative_offset Z None None (-2) 1 [1; 2; 3; 4]
              ltac:(lia) ltac:(cbn; lia))
    as (_ & Hmid & _).
  apply Hmid; lia.
Defined.

Lemma useSingle_index_witness :
  useSingle_result (useSingle_query (fun z => 1 <? z) None (Some 1) [1; 2; 3; 4])
  = Some 3.
Proof.
  destruct (useSingle_index Z (fun z => 1 <? z) None (Some 1) [1; 2; 3; 4]
              I ltac:(cbn; lia))
    as [E _].
  exact E.
Defined.

Lemma useSingle_minimum_witness :
  match useSingle_result
          (useSingle_query (fun z => 1 <? z) (Some (fun a b => a - b)) None [4; 1; 3; 2])
  with
  | Some m => forall y, y ∈ [4; 1; 3; 2] -> (1 <? y) = true -> m - y <= 0
  | None => True
  end.
Proof.
  pose proof (useSingle_minimum Z (fun z => 1 <? z) (fun a b => a - b) None
                [4; 1; 3; 2] Zsub_consistent eq_refl) as Hmin.
  destruct (useSingle_result _) as [m |]; [| exact I].
  destruct Hmin as (_ & _ & Hle). exact Hle.
Defined.

Lemma callback_exception_stops_fanout_witness :
  exists w' t,
    TableStore_setStateAction throwingSecond 0 (NewState []) (demoWorld [0; 1; 2]%nat)
    = (Throw TypeError, w', t) /\
    visited t = [0; 1]%nat.
Proof.
  destruct (callback_exception_stops_fanout JsObject throwingSecond
              0%nat (NewState []) (demoWorld [0; 1; 2]%nat) (demoStore [0; 1; 2]%nat)
              [0%nat] 1%nat [2%nat] (boundHook (Some sampleRecords)) TypeError
              eq_refl eq_refl)
    as (w' & t & E & Hv & _).
  - intros Hin. apply elem_of_cons in Hin as [Hin | Hin]; [discriminate |].
    now apply elem_of_nil in Hin.
  - reflexivity.
  - reflexivity.
  - left. discriminate.
  - intros w0. reflexivity.
  - intros s Hs. apply elem_of_cons in Hs as [-> | Hs].
    + split; [apply demoWorld_live; lia | apply useQuery_rerender_quiet].
    + now apply elem_of_nil in Hs.
  - exists w', t. auto.
Defined.

Lemma fresh_table_first_render_witness :
  exists w',
    (res ← createTable (@useQuery_rerender JsObject) (ArgValue (VString "id"));
     useQuery_firstRender (fst (fst res)) (plainQuery (fun arr => arr))) emptyWorld
    = (Ok (0%nat, []), w', []).
Proof.
  destruct (@fresh_table_first_render JsObject _ (@useQuery_rerender JsObject)
              (ArgValue (VString "id")) _ (plainQuery (fun arr => arr)) emptyWorld
              eq_refl)
    as (w' & E & _).
  exists w'. exact E.
Defined.
